(** * tailwind-rn: the class-name resolver of [index.js]

    A shallow embedding of [src/index.js] and the properties of its
    normalisation, ordering, breakpoint filtering, cross-class resolution,
    merge, variable substitution and memoisation.

    Modelling conventions.
    - A JavaScript string is a [string]: a sequence of code units, here the
      code units 0..255.
    - A JavaScript number is an IEEE 754 binary64 value: a primitive [float].
    - A plain object used as a dictionary (a style fragment, the style
      accumulator, the lookup table, the cache) is a finite map of its own
      properties, a [gmap string _], together with the members that every
      plain object inherits from [Object.prototype] ([constructor],
      [toString], ...): [k in o] and [o[k]] see them, [Object.entries] and
      [Object.assign] do not. The lookup table is taken to be such a plain
      object, as [require('./styles.json')] yields, and its fragments to
      have no property named [__proto__].
    - Object identity matters for the memoised results, so result objects
      live in a heap and the cache stores their addresses.
    - [console.warn] is modelled by returning the list of emitted warnings.
    - A thrown exception is the [Throw] outcome; a call that returns an
      inherited member instead of a style is the [ReturnInherited]
      outcome. *)

From Stdlib Require Import Floats Ascii String.
From stdpp Require Import base option list gmap strings sorting.

(** ** JavaScript strings *)

Module JsString.

(** [s.startsWith(p)] *)
Fixpoint startsWith (s p : string) : bool :=
  match p with
  | EmptyString => true
  | String b p' =>
      match s with
      | EmptyString => false
      | String a s' => if decide (a = b) then startsWith s' p' else false
      end
  end.

(** [s.includes(k)] *)
Fixpoint includes (s k : string) : bool :=
  startsWith s k ||
  match s with
  | EmptyString => false
  | String _ s' => includes s' k
  end.

(** [s.slice(0, n)] *)
Fixpoint sliceTo (n : nat) (s : string) : string :=
  match n, s with
  | S n', String a s' => String a (sliceTo n' s')
  | _, _ => EmptyString
  end.

(** [s.slice(n)] *)
Fixpoint sliceFrom (n : nat) (s : string) : string :=
  match n, s with
  | S n', String _ s' => sliceFrom n' s'
  | _, _ => s
  end.

(** The code units below 256 that [\s] and [trim] treat as white space:
    TAB, LF, VT, FF, CR, SPACE and NBSP. *)
Definition isWhiteSpace (a : ascii) : bool :=
  bool_decide (nat_of_ascii a ∈ [9; 10; 11; 12; 13; 32; 160]).

(** [s.replace(/\s+/g, ' ')]: every maximal run of white space becomes one
    space. [inRun] tells that the previous code unit was white space. *)
Fixpoint collapseFrom (inRun : bool) (s : string) : string :=
  match s with
  | EmptyString => EmptyString
  | String a s' =>
      if isWhiteSpace a
      then (if inRun then collapseFrom true s'
            else String " " (collapseFrom true s'))
      else String a (collapseFrom false s')
  end.

Definition replaceWhiteSpace (s : string) : string := collapseFrom false s.

Fixpoint trimStart (s : string) : string :=
  match s with
  | EmptyString => EmptyString
  | String a s' => if isWhiteSpace a then trimStart s' else s
  end.

Fixpoint trimEnd (s : string) : string :=
  match s with
  | EmptyString => EmptyString
  | String a s' =>
      match trimEnd s' with
      | EmptyString => if isWhiteSpace a then EmptyString else String a EmptyString
      | r => String a r
      end
  end.

(** [s.trim()] *)
Definition trim (s : string) : string := trimEnd (trimStart s).

(** [s.split(' ')]: never the empty array, [''.split(' ')] is [['']]. *)
Fixpoint split (s : string) : list string :=
  match s with
  | EmptyString => [EmptyString]
  | String a s' =>
      if decide (a = " "%char) then EmptyString :: split s'
      else match split s' with
           | t :: r => String a t :: r
           | [] => [String a EmptyString]
           end
  end.

(** [l.join(' ')] *)
Fixpoint join (l : list string) : string :=
  match l with
  | [] => EmptyString
  | [t] => t
  | t :: r => t +:+ " " +:+ join r
  end.

(** The longest prefix of [s] whose code units satisfy [p], and the rest. *)
Fixpoint takeWhile (p : ascii → bool) (s : string) : string :=
  match s with
  | EmptyString => EmptyString
  | String a s' => if p a then String a (takeWhile p s') else EmptyString
  end.

Fixpoint dropWhile (p : ascii → bool) (s : string) : string :=
  match s with
  | EmptyString => EmptyString
  | String a s' => if p a then dropWhile p s' else s
  end.

(** [regex.exec(s)] for a regular expression without the [g] flag, given the
    function [matchAt] that matches the expression at the start of a string:
    the leftmost match. *)
Fixpoint exec {A} (matchAt : string → option A) (s : string) : option A :=
  match matchAt s with
  | Some m => Some m
  | None =>
      match s with
      | EmptyString => None
      | String _ s' => exec matchAt s'
      end
  end.

End JsString.

Import JsString.

(** [array.sort()] on strings: ascending by code units. The comparison is a
    total order, so the sorted array does not depend on the algorithm. *)
Definition sort (l : list string) : list string := merge_sort String.le l.

(** ** Values, objects and the runtime *)

(** A property value: a string, a number, an array of strings (the
    [fontVariant] list) or any other non-string value (null, a boolean, a
    nested object or array), kept abstract. *)
Inductive value : Type :=
  | VStr (s : string)
  | VNum (n : float)
  | VArr (l : list string)
  | VOther (id : nat)
  | VInherited (member : string).

Abbreviation Obj := (gmap string value).

(** The names of the members of [Object.prototype] (ECMAScript with its
    Annex B). A plain object inherits them: for such a name [k], [k in o]
    holds and [o[k]] reads the member, a function (for ["__proto__"] the
    prototype object itself), unless [o] has an own property of that
    name. All of them are truthy, and none has an enumerable own
    property. *)
Definition objectPrototypeMembers : list string :=
  ["constructor"; "hasOwnProperty"; "isPrototypeOf"; "propertyIsEnumerable";
   "toLocaleString"; "toString"; "valueOf"; "__proto__";
   "__defineGetter__"; "__defineSetter__";
   "__lookupGetter__"; "__lookupSetter__"]%string.

Definition inherited (k : string) : bool :=
  bool_decide (k ∈ objectPrototypeMembers).

(** [o[k]] on a plain object: the own property, else the inherited member,
    else [undefined]. *)
Definition getProperty (o : Obj) (k : string) : option value :=
  match o !! k with
  | Some v => Some v
  | None => if inherited k then Some (VInherited k) else None
  end.

(** The parts of the JavaScript runtime that the code calls on values it does
    not control: [Number.parseFloat] on a string, and the conversions
    ToString and ToNumber of values that are not already a string,
    respectively a number. *)
Record Runtime : Type := {
  parseFloatString : string → float;
  otherToString : value → string;
  otherToNumber : value → float
}.

(** ToString of [o[k]]; a missing property reads as [undefined]. *)
Definition toString (rt : Runtime) (v : option value) : string :=
  match v with
  | None => "undefined"%string
  | Some (VStr s) => s
  | Some w => otherToString rt w
  end.

(** ToNumber of [o[k]]; [undefined] converts to NaN. *)
Definition toNumber (rt : Runtime) (v : option value) : float :=
  match v with
  | None => nan
  | Some (VNum n) => n
  | Some w => otherToNumber rt w
  end.

(** [Number.parseFloat(v)] converts its argument to a string first. *)
Definition parseFloat (rt : Runtime) (v : option value) : float :=
  parseFloatString rt (toString rt v).

(** [Object.assign(target, source)] on plain objects. *)
Definition assign (target source : Obj) : Obj := source ∪ target.

(** ** Errors, warnings and the store *)

(** The error of line 98 quotes the width in its message. *)
Inductive error : Type :=
  | MissingWindowWidth (windowWidth : option float)   (* line 98 *)
  | MissingFontSize      (* line 51 *)
  | TypeError.           (* destructuring [undefined], lines 57 and 59 *)

(** How a call ends: it throws, it returns a result, or (at line 140 only)
    it returns the member of [Object.prototype] of the given name and
    leaves the state as it is. *)
Inductive outcome (A : Type) : Type :=
  | Throw (e : error)
  | Return (a : A)
  | ReturnInherited (member : string).
Arguments Throw {A} e.
Arguments Return {A} a.
Arguments ReturnInherited {A} member.

(** A call of [console.warn] at line 161: the class name and the whole
    normalised string that the message quotes. *)
Record Warning : Type := { unsupported : string; among : string }.

(** The closure state of [create]: the [cache] object, which maps a
    normalised string to a result object, and the heap of result objects. *)
Record Store : Type := {
  cache : gmap string nat;
  heap : list Obj
}.

(** What a returning call of [tailwind] yields: the returned reference
    ([None] for [undefined]), the store after the call and the warnings. *)
Record Result : Type := {
  ref : option nat;
  store : Store;
  warnings : list Warning
}.

(** ** [useVariables], lines 6-22 *)

Definition isLetter (a : ascii) : bool :=
  let n := nat_of_ascii a in
  (bool_decide (97 ≤ n) && bool_decide (n ≤ 122)) ||
  (bool_decide (65 ≤ n) && bool_decide (n ≤ 90)).

Definition isLowerCase (a : ascii) : bool :=
  let n := nat_of_ascii a in bool_decide (97 ≤ n) && bool_decide (n ≤ 122).

(** [[a-zA-Z-]] *)
Definition isNameChar (a : ascii) : bool :=
  isLetter a || bool_decide (a = "-"%char).

(** [/var\(([a-zA-Z-]+)\)/] at the start of [s]: the captured name and what
    follows the match. The class excludes the closing parenthesis, so the
    greedy run either is followed by it or the match fails here. *)
Definition varAt (s : string) : option (string * string) :=
  if startsWith s "var(" then
    let rest := sliceFrom 4 s in
    let name := takeWhile isNameChar rest in
    let after := dropWhile isNameChar rest in
    if bool_decide (name ≠ ""%string) && startsWith after ")"
    then Some (name, sliceFrom 1 after)
    else None
  else None.

(** [value.replace(/var\(([a-zA-Z-]+)\)/, (_, name) => f(name))]: the
    leftmost match, once. *)
Fixpoint replaceVar (f : string → string) (s : string) : string :=
  match varAt s with
  | Some (name, post) => f name +:+ post
  | None =>
      match s with
      | EmptyString => EmptyString
      | String a s' => String a (replaceVar f s')
      end
  end.

Definition useVariablesEntry (rt : Runtime) (object : Obj)
    (key : string) (v : value) : option value :=
  if startsWith key "--" then None
  else match v with
       | VStr s =>
           Some (VStr (replaceVar (λ name, toString rt (getProperty object name)) s))
       | _ => Some v
       end.

Definition useVariables (rt : Runtime) (object : Obj) : Obj :=
  map_imap (useVariablesEntry rt object) object.

(** ** [addFontVariant], lines 26-34 *)

Definition fontVariantKeywords : list string :=
  ["oldstyle-nums"; "lining-nums"; "tabular-nums"; "proportional-nums"]%string.

(** [FONT_VARIANT_REGEX] at the start of [s]. *)
Definition fontVariantAt (s : string) : option string :=
  List.find (startsWith s) fontVariantKeywords.

(** [matchAll(s, FONT_VARIANT_REGEX).toArray()] of the [match-all] package:
    the first capture group of every match of the global regular expression,
    left to right, each search resuming after the previous match. [skip] is
    the number of code units that still belong to the previous match. *)
Fixpoint matchAllFrom (skip : nat) (s : string) : list string :=
  match s with
  | EmptyString => []
  | String _ s' =>
      match skip with
      | S n => matchAllFrom n s'
      | O =>
          match fontVariantAt s with
          | Some k => k :: matchAllFrom (String.length k - 1) s'
          | None => matchAllFrom 0 s'
          end
      end
  end.

Definition matchAllFontVariant (s : string) : list string := matchAllFrom 0 s.

Definition addFontVariant (style : Obj) (classNames : string) : Obj :=
  let matches := matchAllFontVariant classNames in
  if bool_decide (0 < length matches)
  then <["fontVariant" := VArr matches]> style
  else style.

(** ** [addLetterSpacing], lines 38-62 *)

Definition fontSizeNames : list string :=
  ["xs"; "sm"; "base"; "lg"; "xl"; "2xl"; "3xl"; "4xl"; "5xl"; "6xl"]%string.

(** [FONT_SIZE_REGEX] at the start of [s]: the whole match. *)
Definition fontSizeAt (s : string) : option string :=
  if startsWith s "text-" then
    option_map (λ size, "text-" +:+ size)%string
               (List.find (startsWith (sliceFrom 5 s)) fontSizeNames)
  else None.

(** [LETTER_SPACING_REGEX] at the start of [s]: the whole match. *)
Definition letterSpacingAt (s : string) : option string :=
  if startsWith s "tracking-" then
    let letters := takeWhile isLowerCase (sliceFrom 9 s) in
    if bool_decide (letters ≠ ""%string) then Some ("tracking-" +:+ letters)%string else None
  else None.

(** The two matched class names start with [tracking-] and [text-], which
    no member of [Object.prototype] does: [tailwindStyles[...]] is an own
    fragment or [undefined]. The same holds for the properties
    [letterSpacing] and [fontSize] read from the fragments. *)
Definition addLetterSpacing (rt : Runtime) (tailwindStyles : gmap string Obj)
    (style : Obj) (classNames : string) : outcome Obj :=
  match exec letterSpacingAt classNames with
  | None => Return style
  | Some letterSpacingClass =>
      match exec fontSizeAt classNames with
      | None => Throw MissingFontSize
      | Some fontSizeClass =>
          match tailwindStyles !! letterSpacingClass with
          | None => Throw TypeError
          | Some letterSpacingFragment =>
              match tailwindStyles !! fontSizeClass with
              | None => Throw TypeError
              | Some fontSizeFragment =>
                  let letterSpacing := letterSpacingFragment !! "letterSpacing" in
                  let fontSize := fontSizeFragment !! "fontSize" in
                  Return (<["letterSpacing" :=
                              VNum (parseFloat rt letterSpacing * toNumber rt fontSize)]>
                            style)
              end
          end
      end
  end.

(** ** [putLeadingToTheBack], lines 65-77 *)

Definition putLeadingToTheBack (classNames : list string) (maxWidthKey : string)
    : list string :=
  let '(leadingNames, otherNames) :=
    foldl (λ '(leadingNames, otherNames) name,
             if startsWith name (maxWidthKey +:+ "leading-")
             then (leadingNames ++ [name], otherNames)
             else (leadingNames, otherNames ++ [name]))
          ([], []) classNames in
  otherNames ++ leadingNames.

(** ** [create] and [tailwind], lines 79-167 *)

Definition maxWidthKeys : list string := ["sm:"; "md:"; "lg:"; "xl:"]%string.
Definition maxWidthValues : list float := [640; 768; 1024; 1280]%float.

(** [maxWidthKeys[i]] *)
Definition maxWidthKey (i : nat) : string := nth i maxWidthKeys ""%string.

(** [!windowWidth]: [null], zero and NaN are falsy. *)
Definition falsy (windowWidth : option float) : bool :=
  match windowWidth with
  | None => true
  | Some w => (w =? 0)%float || negb (w =? w)%float
  end.

(** [windowWidth >= maxWidth]; [null] converts to zero. *)
Definition geq (windowWidth : option float) (maxWidth : float) : bool :=
  match windowWidth with
  | None => (maxWidth <=? 0)%float
  | Some w => (maxWidth <=? w)%float
  end.

(** Line 96 *)
Definition haveMaxWidthKeys (classNames : string) : bool :=
  existsb (λ k, includes classNames k) maxWidthKeys.

(** Line 101 *)
Definition splitClassNames (classNames : string) : list string :=
  split (trim (replaceWhiteSpace classNames)).

(** Lines 105-116 *)
Definition sortByMaxWidthKeys (classNames : list string) : list string :=
  let c1 := sort (filter (λ c, sliceTo 3 c ∉ maxWidthKeys) classNames) in
  let c2 := sort (filter (λ c, sliceTo 3 c = maxWidthKey 0) classNames) in
  let c3 := sort (filter (λ c, sliceTo 3 c = maxWidthKey 1) classNames) in
  let c4 := sort (filter (λ c, sliceTo 3 c = maxWidthKey 2) classNames) in
  let c5 := sort (filter (λ c, sliceTo 3 c = maxWidthKey 3) classNames) in
  putLeadingToTheBack c1 "" ++
  putLeadingToTheBack c2 (maxWidthKey 0) ++
  putLeadingToTheBack c3 (maxWidthKey 1) ++
  putLeadingToTheBack c4 (maxWidthKey 2) ++
  putLeadingToTheBack c5 (maxWidthKey 3).

(** Line 120 *)
Definition activeCount (windowWidth : option float) : nat :=
  foldl Nat.add 0
        (map (λ maxWidth, if geq windowWidth maxWidth then 1 else 0) maxWidthValues).

(** Lines 120-130 *)
Definition filterByWindowWidth (windowWidth : option float)
    (classNames : list string) : list string :=
  let i := activeCount windowWidth in
  let classNames :=
    filter (λ className,
              let pre := sliceTo 3 className in
              pre ∉ maxWidthKeys ∨ pre ∈ take i maxWidthKeys)
           classNames in
  map (λ className,
         let pre := sliceTo 3 className in
         if bool_decide (pre ∈ maxWidthKeys) then sliceFrom 3 className
         else className)
      classNames.

(** Lines 96-131: the class names that are joined into the cache key. *)
Definition normalizedClassNames (classNames : string) (windowWidth : option float)
    : outcome (list string) :=
  let have := haveMaxWidthKeys classNames in
  if have && falsy windowWidth then Throw (MissingWindowWidth windowWidth)
  else
    let classNames := sortByMaxWidthKeys (splitClassNames classNames) in
    Return (if have then filterByWindowWidth windowWidth classNames
            else classNames).

(** Lines 150-155 *)
Definition separateClassNames (classNames : string) : list string :=
  filter (λ className, className ∉ fontVariantKeywords)
         (filter (λ className, ¬ startsWith className "tracking-")
                 (splitClassNames classNames)).

(** The body of the loop at lines 157-163. For a class name that the table
    only inherits, [tailwindStyles[className]] is the truthy member, and
    [Object.assign] copies nothing from it. *)
Definition mergeClassName (tailwindStyles : gmap string Obj) (classNames : string)
    (acc : Obj * list Warning) (className : string) : Obj * list Warning :=
  match tailwindStyles !! className with
  | Some fragment => (assign acc.1 fragment, acc.2)
  | None =>
      if inherited className then acc
      else (acc.1, acc.2 ++ [{| unsupported := className; among := classNames |}])
  end.

(** Lines 143-163: the merged style and the warnings of the loop. *)
Definition mergeStyle (rt : Runtime) (tailwindStyles : gmap string Obj)
    (classNames : string) : outcome (Obj * list Warning) :=
  let style := addFontVariant ∅ classNames in
  match addLetterSpacing rt tailwindStyles style classNames with
  | Throw e => Throw e
  | Return style =>
      Return (foldl (mergeClassName tailwindStyles classNames) (style, [])
                    (separateClassNames classNames))
  | ReturnInherited member => ReturnInherited member
  end.

(** Lines 80-82: the cache holds the empty style under the empty string. *)
Definition create : Store :=
  {| cache := {[ ""%string := 0 ]}; heap := [∅] |}.

(** Lines 87-167 *)
Definition tailwind (rt : Runtime) (tailwindStyles : gmap string Obj) (st : Store)
    (classNames : string) (windowWidth : option float) : outcome Result :=
  if bool_decide (classNames = ""%string)
  then Return {| ref := cache st !! ""%string; store := st; warnings := [] |}
  else
    match normalizedClassNames classNames windowWidth with
    | Throw e => Throw e
    | ReturnInherited member => ReturnInherited member
    | Return names =>
        let classNames := join names in
        if bool_decide (classNames = ""%string)
        then Return {| ref := cache st !! ""%string; store := st; warnings := [] |}
        else
          match cache st !! classNames with
          | Some r => Return {| ref := Some r; store := st; warnings := [] |}
          | None =>
              if inherited classNames then ReturnInherited classNames
              else
                match mergeStyle rt tailwindStyles classNames with
                | Throw e => Throw e
                | ReturnInherited member => ReturnInherited member
                | Return (style, warns) =>
                    let r := length (heap st) in
                    Return {| ref := Some r;
                              store := {| cache := <[classNames := r]> (cache st);
                                          heap := heap st ++ [useVariables rt style] |};
                              warnings := warns |}
                end
          end
    end.

(** The object a returned reference points to. *)
Definition deref (st : Store) (r : option nat) : option Obj :=
  r ≫= λ a, heap st !! a.

(** Lines 171-174: the background colour of the names prefixed with [bg-];
    reading a property of [undefined] throws, and a member of
    [Object.prototype] has no [backgroundColor]. *)
Definition getColor (rt : Runtime) (tailwindStyles : gmap string Obj) (st : Store)
    (name : string) : outcome (option value * Store * list Warning) :=
  let classNames := join (map (λ className, "bg-" +:+ className) (split name)) in
  match tailwind rt tailwindStyles st classNames None with
  | Throw e => Throw e
  | ReturnInherited _ => Return (None, st, [])
  | Return res =>
      match deref (store res) (ref res) with
      | None => Throw TypeError
      | Some style =>
          Return (style !! "backgroundColor"%string, store res, warnings res)
      end
  end.

(** ** Notions of the specification *)

(** The four breakpoint tiers: tag and minimum width. *)
Definition tiers : list (string * float) :=
  [("sm:"%string, 640%float); ("md:"%string, 768%float);
   ("lg:"%string, 1024%float); ("xl:"%string, 1280%float)].

(** The index of the tier whose tag starts the token, if any. *)
Fixpoint tagIndex (tags : list string) (token : string) : option nat :=
  match tags with
  | [] => None
  | tag :: tags' =>
      if startsWith token tag then Some 0 else S <$> tagIndex tags' token
  end.

Definition tierIndex (token : string) : option nat :=
  tagIndex (map fst tiers) token.

(** The number of tiers whose minimum width is at most [w]. *)
Definition activeTierCount (w : float) : nat :=
  length (List.filter (λ tier, (snd tier <=? w)%float) tiers).

(** A token survives the breakpoint filter: it is untagged, or its tier
    index is below the number of active tiers. *)
Definition survives (w : float) (token : string) : Prop :=
  match tierIndex token with
  | None => True
  | Some i => i < activeTierCount w
  end.

Definition stripTag (token : string) : string :=
  match tierIndex token with
  | None => token
  | Some _ => sliceFrom 3 token
  end.

Global Instance survives_dec w token : Decision (survives w token).
Proof. unfold survives. destruct (tierIndex token); apply _. Defined.

(** The tokens of an input string: its maximal runs of code units that are
    not white space. [wordsGo s] is the run that starts [s] (empty when [s]
    starts with white space) and the later runs. *)
Definition consWord (w : string) (r : list string) : list string :=
  if decide (w = ""%string) then r else w :: r.

Fixpoint wordsGo (s : string) : string * list string :=
  match s with
  | EmptyString => (EmptyString, [])
  | String a s' =>
      let '(w, r) := wordsGo s' in
      if isWhiteSpace a then (EmptyString, consWord w r) else (String a w, r)
  end.

Definition words (s : string) : list string :=
  consWord (wordsGo s).1 (wordsGo s).2.

Fixpoint allWhiteSpace (s : string) : bool :=
  match s with
  | EmptyString => true
  | String a s' => isWhiteSpace a && allWhiteSpace s'
  end.

Fixpoint noWhiteSpace (s : string) : bool :=
  match s with
  | EmptyString => true
  | String a s' => negb (isWhiteSpace a) && noWhiteSpace s'
  end.

(** The stores that the closure returned by [create] can be in: the initial
    one, and the store after any returning call of [tailwind]. *)
Inductive reachable (rt : Runtime) (tailwindStyles : gmap string Obj)
    : Store → Prop :=
  | reachable_create : reachable rt tailwindStyles create
  | reachable_call st classNames windowWidth res :
      reachable rt tailwindStyles st →
      tailwind rt tailwindStyles st classNames windowWidth = Return res →
      reachable rt tailwindStyles (store res).

(** The invariant behind the cache: the empty key holds the empty style
    created at line 81, and every other key holds the finalised merge of
    that key. *)
Definition cacheInv (rt : Runtime) (tailwindStyles : gmap string Obj)
    (st : Store) : Prop :=
  cache st !! ""%string = Some 0 ∧
  heap st !! 0 = Some (∅ : Obj) ∧
  ∀ key r, cache st !! key = Some r → key ≠ ""%string →
    ∃ style warns,
      mergeStyle rt tailwindStyles key = Return (style, warns) ∧
      heap st !! r = Some (useVariables rt style).

(** The two halves of [tailwind]: lines 88-133 compute the normalised
    string, lines 135-166 look it up in the cache or merge its style. *)
Definition normalizedKey (classNames : string) (windowWidth : option float)
    : outcome string :=
  if bool_decide (classNames = ""%string) then Return ""%string
  else match normalizedClassNames classNames windowWidth with
       | Throw e => Throw e
       | Return names => Return (join names)
       | ReturnInherited member => ReturnInherited member
       end.

Definition lookupOrMerge (rt : Runtime) (tailwindStyles : gmap string Obj)
    (st : Store) (classNames : string) : outcome Result :=
  if bool_decide (classNames = ""%string)
  then Return {| ref := cache st !! ""%string; store := st; warnings := [] |}
  else
    match cache st !! classNames with
    | Some r => Return {| ref := Some r; store := st; warnings := [] |}
    | None =>
        if inherited classNames then ReturnInherited classNames
        else
          match mergeStyle rt tailwindStyles classNames with
          | Throw e => Throw e
          | ReturnInherited member => ReturnInherited member
          | Return (style, warns) =>
              let r := length (heap st) in
              Return {| ref := Some r;
                        store := {| cache := <[classNames := r]> (cache st);
                                    heap := heap st ++ [useVariables rt style] |};
                        warnings := warns |}
          end
    end.

(** The placeholder [var(name)], the names the regular expression of line 12
    accepts, and the strings that contain a placeholder. *)
Definition placeholder (name : string) : string := "var(" +:+ name +:+ ")".

Fixpoint allNameChars (s : string) : bool :=
  match s with
  | EmptyString => true
  | String a s' => isNameChar a && allNameChars s'
  end.

Definition validName (name : string) : Prop :=
  name ≠ ""%string ∧ allNameChars name = true.

Definition containsPlaceholder (s : string) : Prop :=
  ∃ pre name post, validName name ∧ s = pre +:+ placeholder name +:+ post.

(** The leftmost placeholder of a string: what precedes it, its name and
    what follows it. *)
Fixpoint firstPlaceholder (s : string) : option (string * string * string) :=
  match varAt s with
  | Some (name, post) => Some (EmptyString, name, post)
  | None =>
      match s with
      | EmptyString => None
      | String a s' =>
          (λ m, (String a m.1.1, m.1.2, m.2)) <$> firstPlaceholder s'
      end
  end.

(** The order of the merge sequence: first by bucket (untagged, then the
    tiers in order), inside a bucket the [leading-] tokens after the others,
    and lexicographically among the tokens of the same kind. *)
Definition bucketRank (token : string) : nat :=
  match tierIndex token with
  | None => 0
  | Some i => S i
  end.

Definition isLeading (token : string) : bool :=
  startsWith (stripTag token) "leading-".

Definition mergeOrder (a b : string) : Prop :=
  bucketRank a < bucketRank b ∨
  (bucketRank a = bucketRank b ∧
   ((isLeading a = false ∧ isLeading b = true) ∨
    (isLeading a = isLeading b ∧ String.le a b))).

(** A value that the variable resolver leaves as it is: any value but a
    string with a placeholder. *)
Definition plainValue (v : value) : Prop :=
  match v with
  | VStr s => ¬ containsPlaceholder s
  | _ => True
  end.

(** No class name of the merge loop for [classNames] has a fragment that
    defines the property [p]. *)
Definition notMerged (tailwindStyles : gmap string Obj) (classNames p : string)
    : Prop :=
  ∀ className fragment,
    className ∈ separateClassNames classNames →
    tailwindStyles !! className = Some fragment →
    fragment !! p = None.

(** A runtime and a table for the examples. *)
Definition sampleRuntime : Runtime :=
  {| parseFloatString :=
       λ s, if decide (s = "-0.05em"%string) then (-0x1.999999999999ap-5)%float
            else nan;
     otherToString := λ _, "[object Object]"%string;
     otherToNumber := λ _, nan |}.

Definition sampleStyles : gmap string Obj :=
  {[ "text-lg"%string :=
       {[ "fontSize"%string := VNum 18; "lineHeight"%string := VNum 28 ]};
     "leading-6"%string := {[ "lineHeight"%string := VNum 24 ]};
     "bg-red-500"%string := {[ "backgroundColor"%string := VStr "#f56565" ]};
     "bg-blue-500"%string := {[ "backgroundColor"%string := VStr "#4299e1" ]};
     "tracking-tighter"%string := {[ "letterSpacing"%string := VStr "-0.05em" ]};
     "small-caps"%string := {[ "fontVariant"%string := VArr ["small-caps"%string] ]};
     "text-white"%string :=
       {[ "--text-opacity"%string := VNum 1;
          "color"%string := VStr "rgba(255, 255, 255, var(--text-opacity))" ]} ]}.

(** The buckets of the ordering engine: the tokens of tier [i], or the
    untagged tokens for [None], sorted. *)
Definition sortedBucket (i : option nat) (l : list string) : list string :=
  sort (filter (λ c, tierIndex c = i) l).

Definition buckets : list (option nat) := [None; Some 0; Some 1; Some 2; Some 3].

(** All the places of a string at which a font-variant keyword starts, left
    to right: the keyword found at each of them. *)
Fixpoint keywordOccurrences (s : string) : list string :=
  match s with
  | EmptyString => []
  | String _ s' =>
      match fontVariantAt s with
      | Some k => k :: keywordOccurrences s'
      | None => keywordOccurrences s'
      end
  end.

Fixpoint allChars (p : ascii → bool) (s : string) : bool :=
  match s with
  | EmptyString => true
  | String a s' => p a && allChars p s'
  end.

(** A token is kept for the given width: an untagged token always, a tagged
    one when a width is given and its tier is active. *)
Definition keptBy (windowWidth : option float) (token : string) : Prop :=
  match windowWidth with
  | Some w => survives w token
  | None => tierIndex token = None
  end.

Global Instance keptBy_dec windowWidth token : Decision (keptBy windowWidth token).
Proof. destruct windowWidth; apply _. Defined.

(** The shape of the store: every cached reference is the address of an
    object of the heap, no two keys share an object, and no key is the name
    of an inherited member. *)
Definition storeWf (st : Store) : Prop :=
  (∀ key r, cache st !! key = Some r → r < length (heap st)) ∧
  (∀ key1 key2 r,
     cache st !! key1 = Some r → cache st !! key2 = Some r → key1 = key2) ∧
  (∀ key r, cache st !! key = Some r → inherited key = false).

(** [name] with ["bg-"] inserted after each of its spaces. *)
Fixpoint prefixAfterSpaces (name : string) : string :=
  match name with
  | EmptyString => EmptyString
  | String a s =>
      if decide (a = " "%char) then (" bg-" +:+ prefixAfterSpaces s)%string
      else String a (prefixAfterSpaces s)
  end.

(** A class name without special treatment: it has no white space, and
    neither a breakpoint tag, nor a font-variant keyword, nor [tracking-]
    occurs in it. *)
Definition ordinaryClass (t : string) : Prop :=
  noWhiteSpace t = true ∧
  Forall (λ k, includes t k = false)
         (maxWidthKeys ++ fontVariantKeywords ++ ["tracking-"%string]).



(** * Properties *)

(** ** Strings *)

Section strings.
Implicit Types (s k p : string) (a b : ascii).

Lemma startsWith_nil s : startsWith s "" = true.
Proof. by destruct s. Qed.

Lemma startsWith_cons a s b k :
  startsWith (String a s) (String b k) = bool_decide (a = b) && startsWith s k.
Proof. simpl. by destruct (decide (a = b)); [rewrite bool_decide_true|rewrite bool_decide_false]. Qed.

Lemma includes_nil_l k : k ≠ ""%string → includes "" k = false.
Proof. by destruct k. Qed.

Lemma consWord_nil r : consWord "" r = r.
Proof. done. Qed.

Lemma consWord_cons a w r : consWord (String a w) r = String a w :: r.
Proof. done. Qed.

Lemma wordsGo_cons a s :
  wordsGo (String a s) =
    if isWhiteSpace a then (EmptyString, words s)
    else (String a (wordsGo s).1, (wordsGo s).2).
Proof. unfold words. simpl. by destruct (wordsGo s). Qed.

Lemma words_cons a s :
  words (String a s) =
    if isWhiteSpace a then words s else String a (wordsGo s).1 :: (wordsGo s).2.
Proof. unfold words at 1. rewrite wordsGo_cons. by destruct (isWhiteSpace a). Qed.

(** The first run is free of white space. *)
Lemma wordsGo_fst_noWhiteSpace s : noWhiteSpace (wordsGo s).1 = true.
Proof.
  induction s as [|a s IH]; [done|].
  rewrite wordsGo_cons. destruct (isWhiteSpace a) eqn:Ha; [done|].
  simpl. by rewrite Ha, IH.
Qed.

Lemma wordsGo_snd_Forall s :
  Forall (λ t, t ≠ ""%string ∧ noWhiteSpace t = true) (wordsGo s).2.
Proof.
  induction s as [|a s IH]; [by constructor|].
  rewrite wordsGo_cons. destruct (isWhiteSpace a) eqn:Ha; [|done].
  simpl. unfold words, consWord. case_decide as Hw; [done|].
  constructor; [|done]. split; [done|]. apply wordsGo_fst_noWhiteSpace.
Qed.

(** Every token is non-empty and free of white space. *)
Lemma words_Forall s :
  Forall (λ t, t ≠ ""%string ∧ noWhiteSpace t = true) (words s).
Proof.
  unfold words, consWord. case_decide as Hw; [apply wordsGo_snd_Forall|].
  constructor; [|apply wordsGo_snd_Forall].
  split; [done|apply wordsGo_fst_noWhiteSpace].
Qed.

Lemma startsWith_isWhiteSpace a s b k :
  isWhiteSpace a = true → isWhiteSpace b = false →
  startsWith (String a s) (String b k) = false.
Proof.
  intros Ha Hb. rewrite startsWith_cons.
  rewrite bool_decide_false; [done|]. intros ->. congruence.
Qed.

(** A prefix test with a tag that has no white space only looks at the
    first run. *)
Lemma startsWith_wordsGo s k :
  noWhiteSpace k = true → startsWith s k = startsWith (wordsGo s).1 k.
Proof.
  revert k. induction s as [|a s IH]; intros k Hk; [done|].
  destruct k as [|b k]; [by rewrite !startsWith_nil|].
  simpl in Hk. apply andb_true_iff in Hk as [Hb Hk].
  apply negb_true_iff in Hb.
  rewrite wordsGo_cons. destruct (isWhiteSpace a) eqn:Ha.
  - by rewrite (startsWith_isWhiteSpace a s b k).
  - cbn [fst]. rewrite !startsWith_cons. by rewrite IH.
Qed.

Lemma existsb_consWord (f : string → bool) w r :
  f ""%string = false → existsb f (consWord w r) = f w || existsb f r.
Proof.
  intros Hf. unfold consWord. case_decide as Hw; [|done]. by rewrite Hw, Hf.
Qed.

(** A substring without white space lies inside one token. *)
Lemma includes_wordsGo s k :
  k ≠ ""%string → noWhiteSpace k = true →
  includes s k =
    includes (wordsGo s).1 k || existsb (λ t, includes t k) (wordsGo s).2.
Proof.
  intros Hne Hk. induction s as [|a s IH]; [by destruct k|].
  cbn [includes]. rewrite IH. rewrite wordsGo_cons.
  destruct (isWhiteSpace a) eqn:Ha; cbn [fst snd].
  - unfold words. rewrite existsb_consWord by by apply includes_nil_l.
    rewrite (includes_nil_l k Hne).
    destruct k as [|b k]; [done|]. simpl in Hk.
    apply andb_true_iff in Hk as [Hb _]. apply negb_true_iff in Hb.
    by rewrite (startsWith_isWhiteSpace a s b k).
  - cbn [includes]. rewrite (startsWith_wordsGo (String a s) k Hk).
    rewrite wordsGo_cons, Ha. cbn [fst]. by rewrite !orb_assoc.
Qed.

Lemma includes_words s k :
  k ≠ ""%string → noWhiteSpace k = true →
  includes s k = existsb (λ t, includes t k) (words s).
Proof.
  intros Hne Hk. rewrite includes_wordsGo by done. unfold words.
  by rewrite existsb_consWord by by apply includes_nil_l.
Qed.

Lemma join_cons t r :
  join (t :: r) = match r with [] => t | _ => t +:+ " " +:+ join r end.
Proof. by destruct r. Qed.

Lemma join_cons_String a t r : join (String a t :: r) = String a (join (t :: r)).
Proof. by destruct r. Qed.

Lemma join_eq_nil l :
  Forall (λ t, t ≠ ""%string ∧ noWhiteSpace t = true) l →
  join l = ""%string → l = [].
Proof.
  destruct 1 as [|t r [Ht _] _]; [done|].
  rewrite join_cons. destruct t; [done|]. by destruct r.
Qed.

Lemma trimEnd_cons a s :
  isWhiteSpace a = false → trimEnd (String a s) = String a (trimEnd s).
Proof. intros Ha. simpl. rewrite Ha. by destruct (trimEnd s). Qed.

(** Collapsing the white space and trimming the end leaves the tokens joined
    by single spaces. *)
Lemma trimEnd_collapseFrom s :
  trimEnd (collapseFrom true s) = join (words s) ∧
  trimEnd (collapseFrom false s) = join ((wordsGo s).1 :: (wordsGo s).2).
Proof.
  induction s as [|a s [IHt IHf]]; [done|].
  rewrite words_cons, wordsGo_cons. cbn [collapseFrom].
  destruct (isWhiteSpace a) eqn:Ha; cbn [fst snd].
  - split; [done|]. rewrite join_cons. cbn [trimEnd]. rewrite IHt.
    destruct (words s) as [|t r] eqn:Hw; [done|].
    destruct (join (t :: r)) eqn:Hj; [|done].
    apply join_eq_nil in Hj; [done|]. rewrite <-Hw. apply words_Forall.
  - rewrite !trimEnd_cons, IHf, join_cons_String by done. done.
Qed.

Lemma trimStart_collapseFrom s :
  trimStart (collapseFrom true s) = collapseFrom true s.
Proof.
  induction s as [|a s IH]; [done|]. simpl.
  destruct (isWhiteSpace a) eqn:Ha; [done|]. simpl. by rewrite Ha.
Qed.

Lemma trim_replaceWhiteSpace s : trim (replaceWhiteSpace s) = join (words s).
Proof.
  unfold trim, replaceWhiteSpace.
  assert (trimStart (collapseFrom false s) = collapseFrom true s) as ->.
  { destruct s as [|a s]; [done|]. simpl.
    destruct (isWhiteSpace a) eqn:Ha.
    - simpl. apply trimStart_collapseFrom.
    - simpl. by rewrite Ha. }
  apply trimEnd_collapseFrom.
Qed.

Lemma noWhiteSpace_app s k :
  noWhiteSpace (s +:+ k) = noWhiteSpace s && noWhiteSpace k.
Proof. induction s as [|a s IH]; [done|]. simpl. by rewrite IH, andb_assoc. Qed.

Lemma split_noWhiteSpace t : noWhiteSpace t = true → split t = [t].
Proof.
  induction t as [|a t IH]; [done|]. simpl. intros [Ha Ht]%andb_true_iff.
  rewrite IH by done. case_decide as Hsp; [|done]. by subst a.
Qed.

Lemma split_app_space t s :
  noWhiteSpace t = true → split (t +:+ " " +:+ s) = t :: split s.
Proof.
  induction t as [|a t IH]; [done|]. simpl. intros [Ha Ht]%andb_true_iff.
  rewrite IH by done. case_decide as Hsp; [|done]. by subst a.
Qed.

Lemma split_join l :
  l ≠ [] → Forall (λ t, noWhiteSpace t = true) l → split (join l) = l.
Proof.
  intros Hne Hl. induction Hl as [|t r Ht Hr IH]; [done|].
  rewrite join_cons. destruct r as [|u r]; [by apply split_noWhiteSpace|].
  rewrite split_app_space by done. by rewrite IH.
Qed.

(** Line 101 yields the tokens of the string, and [['']] when it has none. *)
Lemma splitClassNames_words s :
  splitClassNames s = match words s with [] => [""%string] | l => l end.
Proof.
  unfold splitClassNames. rewrite trim_replaceWhiteSpace.
  destruct (words s) as [|t r] eqn:Hw; [done|].
  apply split_join; [done|]. rewrite <-Hw.
  eapply Forall_impl; [apply words_Forall|]. by intros ? [_ ?].
Qed.

Lemma wordsGo_noWhiteSpace t : noWhiteSpace t = true → wordsGo t = (t, []).
Proof.
  induction t as [|a t IH]; [done|]. simpl. intros [Ha Ht]%andb_true_iff.
  rewrite IH by done. apply negb_true_iff in Ha. by rewrite Ha.
Qed.

Lemma wordsGo_app_space t s :
  noWhiteSpace t = true → wordsGo (t +:+ " " +:+ s) = (t, words s).
Proof.
  induction t as [|a t IH].
  - intros _. change (wordsGo (String " " s) = (EmptyString, words s)).
    by rewrite wordsGo_cons.
  - intros [Ha Ht]%andb_true_iff. apply negb_true_iff in Ha.
    change (wordsGo (String a (t +:+ " " +:+ s)) = (String a t, words s)).
    by rewrite wordsGo_cons, Ha, IH.
Qed.

(** The tokens of a joined list of space-free names: its non-empty names. *)
Lemma words_join l :
  Forall (λ t, noWhiteSpace t = true) l →
  words (join l) = filter (λ t, t ≠ ""%string) l.
Proof.
  induction 1 as [|t r Ht Hr IH]; [done|].
  rewrite join_cons. destruct r as [|u r].
  - unfold words. rewrite wordsGo_noWhiteSpace by done. cbn [fst snd].
    unfold consWord. rewrite filter_cons. by repeat case_decide.
  - unfold words at 1. rewrite wordsGo_app_space by done. cbn [fst snd].
    rewrite IH. unfold consWord. rewrite (filter_cons _ t).
    by repeat case_decide.
Qed.

Lemma words_allWhiteSpace s : allWhiteSpace s = true → words s = [].
Proof.
  induction s as [|a s IH]; [done|]. simpl. intros [Ha Hs]%andb_true_iff.
  rewrite words_cons, Ha. auto.
Qed.

End strings.

(** ** Ordering *)

Section ordering.
Implicit Types (l : list string) (c t k : string).

(** The sorted array is determined by the multiset of its elements. *)
Lemma sort_Permutation l1 l2 : l1 ≡ₚ l2 → sort l1 = sort l2.
Proof.
  intros Hp. unfold sort.
  apply (StronglySorted_unique String.le).
  - apply StronglySorted_merge_sort; apply _.
  - apply StronglySorted_merge_sort; apply _.
  - by rewrite !merge_sort_Permutation.
Qed.

Lemma sort_perm l : sort l ≡ₚ l.
Proof. apply merge_sort_Permutation. Qed.

Lemma sort_sorted l : StronglySorted String.le (sort l).
Proof. apply StronglySorted_merge_sort; apply _. Qed.

Lemma putLeadingToTheBack_foldl l k ln on :
  foldl (λ '(leadingNames, otherNames) name,
           if startsWith name (k +:+ "leading-")
           then (leadingNames ++ [name], otherNames)
           else (leadingNames, otherNames ++ [name]))
        (ln, on) l
  = (ln ++ filter (λ n, startsWith n (k +:+ "leading-")) l,
     on ++ filter (λ n, ¬ startsWith n (k +:+ "leading-")) l).
Proof.
  revert ln on. induction l as [|x l IH]; intros ln on.
  - by rewrite !filter_nil, !app_nil_r.
  - cbn [foldl]. rewrite !filter_cons.
    destruct (startsWith x (k +:+ "leading-")) eqn:Hx.
    + rewrite IH. rewrite decide_True, decide_False by (rewrite ?Hx; naive_solver).
      by rewrite <-app_assoc.
    + rewrite IH. rewrite decide_False, decide_True by (rewrite ?Hx; naive_solver).
      by rewrite <-app_assoc.
Qed.

(** The loop of [putLeadingToTheBack] is a stable partition. *)
Lemma putLeadingToTheBack_filter l k :
  putLeadingToTheBack l k =
    filter (λ n, ¬ startsWith n (k +:+ "leading-")) l ++
    filter (λ n, startsWith n (k +:+ "leading-")) l.
Proof. unfold putLeadingToTheBack. by rewrite putLeadingToTheBack_foldl. Qed.

Lemma putLeadingToTheBack_perm l k : putLeadingToTheBack l k ≡ₚ l.
Proof.
  rewrite putLeadingToTheBack_filter.
  rewrite (comm (++)). apply (filter_app_complement _ l).
Qed.

Lemma sortByMaxWidthKeys_Permutation l1 l2 :
  l1 ≡ₚ l2 → sortByMaxWidthKeys l1 = sortByMaxWidthKeys l2.
Proof.
  intros Hp. unfold sortByMaxWidthKeys.
  assert (∀ (P : string → Prop) `{!∀ x, Decision (P x)},
            sort (filter P l1) = sort (filter P l2)) as Hs.
  { intros P ?. apply sort_Permutation. by rewrite Hp. }
  by rewrite !Hs.
Qed.

Lemma sliceTo_startsWith c k :
  sliceTo (String.length k) c = k ↔ startsWith c k = true.
Proof.
  revert c. induction k as [|b k IH]; intros c.
  - by destruct c.
  - destruct c as [|a c]; [done|]. cbn [String.length sliceTo].
    rewrite startsWith_cons. rewrite andb_true_iff, bool_decide_eq_true, <-IH.
    split; [by intros [= -> ->]|by intros [-> ->]].
Qed.

Lemma sliceTo_maxWidthKey c i :
  i < 4 → sliceTo 3 c = maxWidthKey i ↔ startsWith c (maxWidthKey i) = true.
Proof.
  intros Hi. rewrite <-sliceTo_startsWith.
  by do 4 (destruct i as [|i]; [done|]); lia.
Qed.

Lemma in_maxWidthKeys k :
  k ∈ maxWidthKeys ↔ ∃ i, i < 4 ∧ k = maxWidthKey i.
Proof.
  unfold maxWidthKeys. rewrite !elem_of_cons, elem_of_nil. split.
  - intros [->|[->|[->|[->|[]]]]]; [exists 0|exists 1|exists 2|exists 3];
      (split; [lia|done]).
  - intros (i & Hi & ->). do 4 (destruct i as [|i]; [naive_solver|]). lia.
Qed.

(** Every class name falls into exactly one of the five buckets. *)
Lemma sortByMaxWidthKeys_perm l : sortByMaxWidthKeys l ≡ₚ l.
Proof.
  unfold sortByMaxWidthKeys. rewrite !putLeadingToTheBack_perm, !sort_perm.
  induction l as [|x l IH]; [done|]. rewrite !filter_cons.
  destruct (decide (sliceTo 3 x ∉ maxWidthKeys)) as [Hx|Hx].
  - repeat (case_decide;
      [exfalso; apply Hx;
       match goal with H : sliceTo 3 x = _ |- _ => rewrite H end;
       apply in_maxWidthKeys; eauto 10 with lia|]).
    apply perm_skip, IH.
  - apply dec_stable in Hx. apply in_maxWidthKeys in Hx as (i & Hi & Hx).
    rewrite Hx. clear Hx.
    do 4 (destruct i as [|i];
      [repeat case_decide;
       try (by match goal with
               | H : maxWidthKey _ = maxWidthKey _ |- _ => vm_compute in H
               | H : maxWidthKey _ ≠ maxWidthKey _ |- _ => vm_compute in H
               end);
       cbn [app]; rewrite <-?Permutation_middle; apply perm_skip, IH|]).
    lia.
Qed.

Lemma elem_of_sortByMaxWidthKeys l t : t ∈ sortByMaxWidthKeys l ↔ t ∈ l.
Proof. by rewrite sortByMaxWidthKeys_perm. Qed.

End ordering.

(** ** The breakpoint filter *)

Section breakpoints.
Implicit Types (l : list string) (c t k : string) (w : float).

(** The tier index is the position of the first three code units among the
    tags. *)
Lemma tierIndex_spec c :
  match tierIndex c with
  | None => sliceTo 3 c ∉ maxWidthKeys
  | Some i => i < 4 ∧ sliceTo 3 c = maxWidthKey i
  end.
Proof.
  pose proof (sliceTo_startsWith c "sm:") as H0.
  pose proof (sliceTo_startsWith c "md:") as H1.
  pose proof (sliceTo_startsWith c "lg:") as H2.
  pose proof (sliceTo_startsWith c "xl:") as H3.
  unfold tierIndex, tiers. cbn [map fst tagIndex String.length] in *.
  destruct (startsWith c "sm:"); [split; [lia|by apply H0]|].
  destruct (startsWith c "md:"); [split; [cbn; lia|by apply H1]|].
  destruct (startsWith c "lg:"); [split; [cbn; lia|by apply H2]|].
  destruct (startsWith c "xl:"); [split; [cbn; lia|by apply H3]|].
  intros (i & Hi & Hk)%in_maxWidthKeys.
  destruct i as [|[|[|[|i]]]];
    [by apply H0 in Hk|by apply H1 in Hk|by apply H2 in Hk|by apply H3 in Hk|lia].
Qed.

Lemma tierIndex_None c : tierIndex c = None ↔ sliceTo 3 c ∉ maxWidthKeys.
Proof.
  pose proof (tierIndex_spec c) as Hc. destruct (tierIndex c) as [i|]; [|done].
  split; [done|]. intros []. apply in_maxWidthKeys. exists i. apply Hc.
Qed.

Lemma tierIndex_startsWith c i :
  tierIndex c = Some i → startsWith c (maxWidthKey i) = true.
Proof.
  intros Hc. pose proof (tierIndex_spec c) as Hs. rewrite Hc in Hs.
  destruct Hs as [Hi Hs]. by apply sliceTo_maxWidthKey.
Qed.

(** The sum at line 120 counts the active tiers. *)
Lemma activeCount_activeTierCount w : activeCount (Some w) = activeTierCount w.
Proof.
  unfold activeCount, activeTierCount, maxWidthValues, tiers, geq.
  cbn [map foldl List.filter snd].
  by destruct (640 <=? w)%float, (768 <=? w)%float, (1024 <=? w)%float,
              (1280 <=? w)%float.
Qed.

Lemma maxWidthKeys_lookup i j :
  i < 4 → maxWidthKeys !! j = Some (maxWidthKey i) ↔ j = i.
Proof.
  intros Hi. do 4 (destruct i as [|i];
    [do 4 (destruct j as [|j]; [by split|]); by split|]). lia.
Qed.

Lemma maxWidthKey_take i n :
  i < 4 → maxWidthKey i ∈ take n maxWidthKeys ↔ i < n.
Proof.
  intros Hi. rewrite list_elem_of_lookup. split.
  - intros (j & [Hj Hn]%lookup_take_Some).
    apply maxWidthKeys_lookup in Hj; [by subst j|done].
  - intros Hn. exists i. apply lookup_take_Some. split; [|done].
    by apply maxWidthKeys_lookup.
Qed.

(** The test at line 123 keeps exactly the surviving tokens. *)
Lemma keep_survives w c :
  sliceTo 3 c ∉ maxWidthKeys ∨
    sliceTo 3 c ∈ take (activeCount (Some w)) maxWidthKeys
  ↔ survives w c.
Proof.
  rewrite activeCount_activeTierCount. unfold survives.
  pose proof (tierIndex_spec c) as Hc. destruct (tierIndex c) as [i|].
  - destruct Hc as [Hi Hc]. rewrite Hc, maxWidthKey_take by done.
    split; [|by right]. intros [Hn|]; [|done].
    destruct Hn. apply in_maxWidthKeys. eauto.
  - split; [done|by left].
Qed.

Lemma strip_stripTag c :
  (if bool_decide (sliceTo 3 c ∈ maxWidthKeys) then sliceFrom 3 c else c)
  = stripTag c.
Proof.
  unfold stripTag. pose proof (tierIndex_spec c) as Hc.
  destruct (tierIndex c) as [i|].
  - rewrite bool_decide_true; [done|]. apply in_maxWidthKeys. exists i. apply Hc.
  - by rewrite bool_decide_false.
Qed.

Lemma filterByWindowWidth_spec w l :
  filterByWindowWidth (Some w) l = map stripTag (filter (survives w) l).
Proof.
  unfold filterByWindowWidth.
  rewrite (list_filter_iff _ (survives w)) by (intros c; apply keep_survives).
  apply map_ext. intros c. apply strip_stripTag.
Qed.

Lemma startsWith_includes t k : startsWith t k = true → includes t k = true.
Proof. intros Hk. destruct t; simpl in *; by rewrite Hk. Qed.

Lemma maxWidthKey_noWhiteSpace i :
  i < 4 → maxWidthKey i ≠ ""%string ∧ noWhiteSpace (maxWidthKey i) = true.
Proof. intros Hi. do 4 (destruct i as [|i]; [done|]). lia. Qed.

Lemma haveMaxWidthKeys_existsb s :
  haveMaxWidthKeys s =
    existsb (λ k, existsb (λ t, includes t k) (words s)) maxWidthKeys.
Proof.
  unfold haveMaxWidthKeys, maxWidthKeys. cbn [existsb].
  by rewrite !includes_words by done.
Qed.

(** The substring test of line 96 finds every tagged token. *)
Lemma tierIndex_haveMaxWidthKeys s t i :
  t ∈ splitClassNames s → tierIndex t = Some i → haveMaxWidthKeys s = true.
Proof.
  intros Ht Hi. rewrite splitClassNames_words in Ht.
  assert (t ∈ words s) as Hw.
  { destruct (words s); [|done]. apply list_elem_of_singleton in Ht.
    by subst t. }
  pose proof (tierIndex_spec t) as Hs. rewrite Hi in Hs. destruct Hs as [Hlt _].
  apply tierIndex_startsWith, startsWith_includes in Hi.
  rewrite haveMaxWidthKeys_existsb. apply existsb_exists.
  exists (maxWidthKey i). split.
  - apply list_elem_of_In, in_maxWidthKeys. eauto.
  - apply existsb_exists. exists t. by rewrite <-list_elem_of_In.
Qed.

Lemma filter_survives_untagged w l :
  Forall (λ t, tierIndex t = None) l →
  map stripTag (filter (survives w) l) = l.
Proof.
  induction 1 as [|t l Ht Hl IH]; [done|].
  rewrite filter_cons, decide_True by (unfold survives; by rewrite Ht).
  cbn [map]. rewrite IH. unfold stripTag. by rewrite Ht.
Qed.

(** Lines 96-131 in the terms of the specification. *)
Lemma normalizedClassNames_spec s w :
  normalizedClassNames s (Some w) =
    if haveMaxWidthKeys s && falsy (Some w)
    then Throw (MissingWindowWidth (Some w))
    else Return (map stripTag
                   (filter (survives w) (sortByMaxWidthKeys (splitClassNames s)))).
Proof.
  unfold normalizedClassNames.
  destruct (haveMaxWidthKeys s) eqn:Hh.
  - destruct (falsy (Some w)); [done|]. cbn [andb].
    by rewrite filterByWindowWidth_spec.
  - cbn [andb]. rewrite filter_survives_untagged; [done|].
    apply Forall_forall. intros t Ht. rewrite elem_of_sortByMaxWidthKeys in Ht.
    destruct (tierIndex t) as [i|] eqn:Hi; [|done].
    by rewrite (tierIndex_haveMaxWidthKeys s t i) in Hh.
Qed.

End breakpoints.

(** ** The cache *)

Section store.
Context (rt : Runtime) (tailwindStyles : gmap string Obj).
Implicit Types (st : Store) (s key : string) (w : option float) (res : Result).

(** Only line 140 returns an inherited member. *)
Lemma normalizedClassNames_not_inherited s w m :
  normalizedClassNames s w ≠ ReturnInherited m.
Proof. unfold normalizedClassNames. by destruct (_ && _). Qed.

Lemma normalizedKey_not_inherited s w m : normalizedKey s w ≠ ReturnInherited m.
Proof.
  unfold normalizedKey, normalizedClassNames. case_bool_decide; [done|].
  by destruct (_ && _).
Qed.

Lemma addLetterSpacing_not_inherited style key m :
  addLetterSpacing rt tailwindStyles style key ≠ ReturnInherited m.
Proof.
  unfold addLetterSpacing.
  destruct (exec letterSpacingAt key); [|done].
  destruct (exec fontSizeAt key); [|done].
  destruct (tailwindStyles !! _); [|done].
  by destruct (tailwindStyles !! _).
Qed.

Lemma mergeStyle_not_inherited key m :
  mergeStyle rt tailwindStyles key ≠ ReturnInherited m.
Proof.
  unfold mergeStyle.
  destruct (addLetterSpacing _ _ _ _) as [| |m'] eqn:Hs; [done..|].
  by apply addLetterSpacing_not_inherited in Hs.
Qed.

(** A test that a string passes and no member name does. *)
Lemma not_inherited (P : string → bool) key :
  P key = true → forallb (λ m, negb (P m)) objectPrototypeMembers = true →
  inherited key = false.
Proof.
  intros HP Hall. apply bool_decide_eq_false. intros Hin.
  rewrite forallb_forall in Hall. apply list_elem_of_In, Hall in Hin.
  by rewrite HP in Hin.
Qed.

Lemma not_inherited_tracking key :
  includes key "tracking-" = true → inherited key = false.
Proof.
  intros Hk. apply (not_inherited (λ k, includes k "tracking-") key Hk).
  vm_compute. reflexivity.
Qed.

Lemma not_inherited_bg key : startsWith key "bg-" = true → inherited key = false.
Proof.
  intros Hk. apply (not_inherited (λ k, startsWith k "bg-") key Hk).
  vm_compute. reflexivity.
Qed.

Lemma tailwind_eq st s w :
  tailwind rt tailwindStyles st s w =
    match normalizedKey s w with
    | Throw e => Throw e
    | Return key => lookupOrMerge rt tailwindStyles st key
    | ReturnInherited member => ReturnInherited member
    end.
Proof.
  unfold tailwind, normalizedKey, lookupOrMerge.
  case_bool_decide; [done|]. by destruct (normalizedClassNames s w).
Qed.

(** A second lookup of the same key returns the same reference, leaves the
    store alone and warns about nothing; it consults neither the table nor
    the runtime. *)
Lemma lookupOrMerge_again st key res rt' tailwindStyles' :
  lookupOrMerge rt tailwindStyles st key = Return res →
  lookupOrMerge rt' tailwindStyles' (store res) key =
    Return {| ref := ref res; store := store res; warnings := [] |}.
Proof.
  unfold lookupOrMerge. case_bool_decide as Hk.
  - intros [= <-]. done.
  - destruct (cache st !! key) as [r|] eqn:Hr.
    + intros [= <-]. cbn. by rewrite Hr.
    + destruct (inherited key); [done|].
      destruct (mergeStyle rt tailwindStyles key) as [|[style warns]|];
        [done| |done].
      intros [= <-]. cbn. by rewrite lookup_insert_eq.
Qed.

Lemma lookupOrMerge_inv st key res :
  cacheInv rt tailwindStyles st →
  lookupOrMerge rt tailwindStyles st key = Return res →
  cacheInv rt tailwindStyles (store res).
Proof.
  intros (H0 & He & Hc). unfold lookupOrMerge. case_bool_decide as Hk.
  { by intros [= <-]. }
  destruct (cache st !! key) as [r|] eqn:Hr.
  { by intros [= <-]. }
  destruct (inherited key); [done|].
  destruct (mergeStyle rt tailwindStyles key) as [|[style warns]|] eqn:Hm;
    [done| |done].
  intros [= <-]. unfold cacheInv. cbn [store cache heap]. split_and!.
  - by rewrite lookup_insert_ne.
  - apply lookup_app_l_Some, He.
  - intros key' r'. destruct (decide (key' = key)) as [->|Hne].
    + rewrite lookup_insert_eq. intros [= <-] _. exists style, warns.
      split; [done|]. by rewrite lookup_app_r, Nat.sub_diag.
    + rewrite lookup_insert_ne by done. intros Hr' Hk'.
      destruct (Hc key' r' Hr' Hk') as (style' & warns' & ? & ?).
      exists style', warns'. split; [done|]. by apply lookup_app_l_Some.
Qed.

Lemma create_inv : cacheInv rt tailwindStyles create.
Proof.
  split_and!; [done..|]. intros key r. unfold create. cbn [cache].
  by intros [<- _]%lookup_singleton_Some.
Qed.

(** Every reachable store satisfies the cache invariant. *)
Lemma reachable_inv st : reachable rt tailwindStyles st → cacheInv rt tailwindStyles st.
Proof.
  induction 1 as [|st s w res _ IH Hcall]; [apply create_inv|].
  rewrite tailwind_eq in Hcall.
  destruct (normalizedKey s w) as [|key|]; [done| |done].
  by eapply lookupOrMerge_inv.
Qed.

(** What a lookup returns in a store that satisfies the invariant. *)
Lemma lookupOrMerge_empty st :
  cacheInv rt tailwindStyles st →
  lookupOrMerge rt tailwindStyles st "" =
    Return {| ref := Some 0; store := st; warnings := [] |}.
Proof. intros (H0 & _). unfold lookupOrMerge. cbn. by rewrite H0. Qed.

Lemma lookupOrMerge_Return st key style warns :
  cacheInv rt tailwindStyles st → key ≠ ""%string → inherited key = false →
  mergeStyle rt tailwindStyles key = Return (style, warns) →
  ∃ res, lookupOrMerge rt tailwindStyles st key = Return res ∧
         deref (store res) (ref res) = Some (useVariables rt style).
Proof.
  intros (H0 & He & Hc) Hk Hi Hm. unfold lookupOrMerge.
  rewrite bool_decide_false by done.
  destruct (cache st !! key) as [r|] eqn:Hr.
  - eexists. split; [done|]. cbn.
    destruct (Hc key r Hr Hk) as (style' & warns' & Hm' & Hh).
    rewrite Hm in Hm'. by injection Hm' as <- <-.
  - rewrite Hi, Hm. eexists. split; [done|]. cbn.
    by rewrite lookup_app_r, Nat.sub_diag.
Qed.

Lemma lookupOrMerge_Throw st key e :
  cacheInv rt tailwindStyles st → key ≠ ""%string → inherited key = false →
  mergeStyle rt tailwindStyles key = Throw e →
  lookupOrMerge rt tailwindStyles st key = Throw e.
Proof.
  intros (H0 & He & Hc) Hk Hi Hm. unfold lookupOrMerge.
  rewrite bool_decide_false by done.
  destruct (cache st !! key) as [r|] eqn:Hr; [|by rewrite Hi, Hm].
  destruct (Hc key r Hr Hk) as (style' & warns' & Hm' & Hh). congruence.
Qed.

(** A key that is the name of an inherited member and is not cached. *)
Lemma lookupOrMerge_inherited st key :
  cache st !! key = None → inherited key = true →
  lookupOrMerge rt tailwindStyles st key = ReturnInherited key.
Proof.
  intros Hmiss Hi. unfold lookupOrMerge.
  rewrite bool_decide_false, Hmiss, Hi; [done|]. by intros ->.
Qed.

Lemma lookupOrMerge_Return_inv st key res :
  cacheInv rt tailwindStyles st → key ≠ ""%string →
  lookupOrMerge rt tailwindStyles st key = Return res →
  ∃ style warns,
    mergeStyle rt tailwindStyles key = Return (style, warns) ∧
    deref (store res) (ref res) = Some (useVariables rt style).
Proof.
  intros Hinv Hk Hres.
  destruct (cache st !! key) as [r|] eqn:Hr.
  { destruct Hinv as (_ & _ & Hc).
    destruct (Hc key r Hr Hk) as (style & warns & Hm & Hh).
    exists style, warns. split; [done|]. unfold lookupOrMerge in Hres.
    rewrite bool_decide_false, Hr in Hres by done. by injection Hres as <-. }
  unfold lookupOrMerge in Hres. rewrite bool_decide_false, Hr in Hres by done.
  destruct (inherited key); [done|].
  destruct (mergeStyle rt tailwindStyles key) as [e|[style warns]|m] eqn:Hm;
    [done| |done].
  exists style, warns. split; [done|]. injection Hres as <-. cbn.
  by rewrite lookup_app_r, Nat.sub_diag.
Qed.

End store.

(** ** Variable substitution *)

Section variables.
Context (rt : Runtime).
Implicit Types (s pre name post k : string) (o : Obj).

Lemma append_String a s t : String a s +:+ t = String a (s +:+ t).
Proof. done. Qed.

Lemma append_assoc s t u : (s +:+ t) +:+ u = s +:+ t +:+ u.
Proof. induction s as [|a s IH]; [done|]. by rewrite !append_String, IH. Qed.

Lemma startsWith_app s p : startsWith (p +:+ s) p = true.
Proof.
  induction p as [|a p IH]; [apply startsWith_nil|].
  rewrite append_String, startsWith_cons, IH. by rewrite bool_decide_true.
Qed.

Lemma startsWith_sliceFrom s p :
  startsWith s p = true → s = p +:+ sliceFrom (String.length p) s.
Proof.
  revert s. induction p as [|a p IH]; intros s; [done|].
  destruct s as [|b s]; [done|]. rewrite startsWith_cons.
  intros [->%bool_decide_eq_true Hp]%andb_true_iff.
  cbn [String.length sliceFrom]. rewrite append_String. f_equal. by apply IH.
Qed.

Lemma sliceFrom_app p s : sliceFrom (String.length p) (p +:+ s) = s.
Proof. induction p as [|a p IH]; [by destruct s|]. done. Qed.

Lemma takeWhile_dropWhile f s : takeWhile f s +:+ dropWhile f s = s.
Proof.
  induction s as [|a s IH]; [done|]. simpl. destruct (f a); [|done].
  by rewrite append_String, IH.
Qed.

Lemma allNameChars_takeWhile s : allNameChars (takeWhile isNameChar s) = true.
Proof.
  induction s as [|a s IH]; [done|]. simpl.
  destruct (isNameChar a) eqn:Ha; [|done]. simpl. by rewrite Ha.
Qed.

Lemma takeWhile_name name post :
  allNameChars name = true →
  takeWhile isNameChar (name +:+ ")" +:+ post) = name ∧
  dropWhile isNameChar (name +:+ ")" +:+ post) = ")" +:+ post.
Proof.
  induction name as [|a name IH]; [done|]. cbn [allNameChars].
  intros [Ha Hn]%andb_true_iff. rewrite append_String.
  cbn [takeWhile dropWhile]. rewrite Ha. by destruct (IH Hn) as [-> ->].
Qed.

(** The matcher at one position accepts exactly a placeholder. *)
Lemma varAt_Some s name post :
  varAt s = Some (name, post) → s = placeholder name +:+ post ∧ validName name.
Proof.
  unfold varAt. destruct (startsWith s "var(") eqn:Hv; [|done].
  apply (startsWith_sliceFrom _ "var(") in Hv. cbn [String.length] in Hv.
  revert Hv. generalize (sliceFrom 4 s). intros rest Hv.
  case_bool_decide as Hn; [|done]. cbn [andb].
  destruct (startsWith (dropWhile isNameChar rest) ")") eqn:Hp; [|done].
  apply (startsWith_sliceFrom _ ")") in Hp. cbn [String.length] in Hp.
  revert Hp. generalize (sliceFrom 1 (dropWhile isNameChar rest)). intros after Hp.
  intros [= <- <-]. split; [|split; [done|apply allNameChars_takeWhile]].
  rewrite Hv. unfold placeholder. rewrite !append_assoc. f_equal.
  rewrite <-Hp. by rewrite takeWhile_dropWhile.
Qed.

Lemma varAt_placeholder name post :
  validName name → varAt (placeholder name +:+ post) = Some (name, post).
Proof.
  intros [Hne Hn]. unfold varAt, placeholder. rewrite !append_assoc.
  rewrite startsWith_app.
  rewrite (sliceFrom_app "var("). destruct (takeWhile_name name post Hn) as [-> ->].
  rewrite bool_decide_true by done.
  by rewrite startsWith_app, (sliceFrom_app ")").
Qed.

Lemma firstPlaceholder_Some s pre name post :
  firstPlaceholder s = Some (pre, name, post) →
  s = pre +:+ placeholder name +:+ post ∧ validName name.
Proof.
  revert pre. induction s as [|a s IH]; intros pre.
  - cbn. done.
  - cbn [firstPlaceholder]. destruct (varAt (String a s)) as [[n p]|] eqn:Hv.
    + intros [= <- <- <-]. by apply varAt_Some.
    + destruct (firstPlaceholder s) as [[[pre' n'] p']|]; [|done].
      intros [= <- <- <-]. destruct (IH pre' eq_refl) as [-> ?]. done.
Qed.

Lemma firstPlaceholder_app pre name post :
  validName name → is_Some (firstPlaceholder (pre +:+ placeholder name +:+ post)).
Proof.
  intros Hn. induction pre as [|a pre IH].
  - change (is_Some (firstPlaceholder (placeholder name +:+ post))).
    pose proof (varAt_placeholder name post Hn) as Hv.
    destruct (placeholder name +:+ post); cbn [firstPlaceholder]; by rewrite Hv.
  - rewrite append_String. cbn [firstPlaceholder].
    destruct (varAt _) as [[??]|]; [done|]. by apply fmap_is_Some.
Qed.

Lemma firstPlaceholder_None s : firstPlaceholder s = None ↔ ¬ containsPlaceholder s.
Proof.
  split.
  - intros Hs (pre & name & post & Hn & ->).
    apply (firstPlaceholder_app pre name post) in Hn. rewrite Hs in Hn.
    by apply is_Some_None in Hn.
  - intros Hs. destruct (firstPlaceholder s) as [[[pre name] post]|] eqn:Hf; [|done].
    destruct Hs. exists pre, name, post.
    by apply firstPlaceholder_Some in Hf as [-> ?].
Qed.

(** The call of [replace] at line 12 substitutes the leftmost placeholder. *)
Lemma replaceVar_firstPlaceholder f s :
  replaceVar f s =
    match firstPlaceholder s with
    | Some (pre, name, post) => pre +:+ f name +:+ post
    | None => s
    end.
Proof.
  induction s as [|a s IH].
  - cbn. done.
  - cbn [replaceVar firstPlaceholder].
    destruct (varAt (String a s)) as [[n p]|]; [done|]. rewrite IH.
    by destruct (firstPlaceholder s) as [[[pre' n'] p']|].
Qed.

Lemma useVariables_lookup o k :
  useVariables rt o !! k = o !! k ≫= useVariablesEntry rt o k.
Proof. apply map_lookup_imap. Qed.

End variables.

(** ** The merge loop *)

Section merge.
Context (tailwindStyles : gmap string Obj).
Implicit Types (seq : list string) (acc : Obj * list Warning) (p key : string).

Lemma mergeClassName_untouched key acc t p :
  (∀ fragment, tailwindStyles !! t = Some fragment → fragment !! p = None) →
  (mergeClassName tailwindStyles key acc t).1 !! p = acc.1 !! p.
Proof.
  intros Ht. unfold mergeClassName.
  destruct (tailwindStyles !! t) as [fragment|]; [|by destruct (inherited t)].
  cbn. unfold assign. by rewrite lookup_union_r by by apply Ht.
Qed.

(** A property that no merged fragment defines keeps its value. *)
Lemma foldl_merge_untouched key seq acc p :
  (∀ t fragment, t ∈ seq → tailwindStyles !! t = Some fragment →
                 fragment !! p = None) →
  (foldl (mergeClassName tailwindStyles key) acc seq).1 !! p = acc.1 !! p.
Proof.
  revert acc. induction seq as [|t seq IH]; intros acc Hseq; [done|].
  cbn [foldl]. rewrite IH.
  - apply mergeClassName_untouched. intros f. apply Hseq. by left.
  - intros t' f Ht'. apply Hseq. by right.
Qed.

(** Later fragments overwrite earlier ones: the last class name whose
    fragment defines a property decides it. *)
Lemma foldl_merge_last key l1 b l2 acc fragment p v :
  tailwindStyles !! b = Some fragment → fragment !! p = Some v →
  (∀ t f, t ∈ l2 → tailwindStyles !! t = Some f → f !! p = None) →
  (foldl (mergeClassName tailwindStyles key) acc (l1 ++ b :: l2)).1 !! p = Some v.
Proof.
  intros Hb Hp Hl2. rewrite foldl_app. cbn [foldl].
  rewrite foldl_merge_untouched by done.
  unfold mergeClassName. rewrite Hb. cbn. unfold assign.
  by apply lookup_union_Some_l.
Qed.

(** The class names that are not in the table leave the style alone: the
    loop assigns the fragments of the others, in order. *)
Lemma foldl_merge_supported key seq acc :
  (foldl (mergeClassName tailwindStyles key) acc seq).1 =
    foldl assign acc.1 (omap (λ t, tailwindStyles !! t) seq).
Proof.
  revert acc. induction seq as [|t seq IH]; intros acc; [done|].
  cbn [foldl omap list_omap]. rewrite IH. unfold mergeClassName.
  destruct (tailwindStyles !! t); [done|]. by destruct (inherited t).
Qed.

(** One warning for every class name that is neither in the table nor the
    name of an inherited member, in order. *)
Lemma foldl_merge_warnings key seq acc :
  (foldl (mergeClassName tailwindStyles key) acc seq).2 =
    acc.2 ++ map (λ t, {| unsupported := t; among := key |})
                 (filter (λ t, tailwindStyles !! t = None ∧ inherited t = false)
                         seq).
Proof.
  revert acc. induction seq as [|t seq IH]; intros acc.
  - by rewrite filter_nil, app_nil_r.
  - cbn [foldl]. rewrite IH, filter_cons. unfold mergeClassName.
    destruct (tailwindStyles !! t) as [f|] eqn:Ht.
    + by rewrite decide_False by by intros [? _].
    + destruct (inherited t) eqn:Hi.
      * by rewrite decide_False by by intros [_ ?].
      * rewrite decide_True by done. cbn. by rewrite <-app_assoc.
Qed.

End merge.

(** ** The normalised key *)

Section key.
Implicit Types (s key : string) (w : option float).

Lemma haveMaxWidthKeys_blank s : words s = [] → haveMaxWidthKeys s = false.
Proof. intros Hs. rewrite haveMaxWidthKeys_existsb, Hs. done. Qed.

(** An input without tokens normalises to the empty key. *)
Lemma normalizedKey_blank s w : words s = [] → normalizedKey s w = Return ""%string.
Proof.
  intros Hs. unfold normalizedKey. case_bool_decide; [done|].
  unfold normalizedClassNames.
  rewrite haveMaxWidthKeys_blank, splitClassNames_words, Hs by done.
  done.
Qed.

Lemma existsb_Permutation {A} (f : A → bool) (l1 l2 : list A) :
  l1 ≡ₚ l2 → existsb f l1 = existsb f l2.
Proof.
  induction 1 as [|x l1 l2 _ IH|x y l|l1 l2 l3 _ IH1 _ IH2]; cbn.
  - done.
  - by rewrite IH.
  - by destruct (f x), (f y).
  - congruence.
Qed.

Lemma haveMaxWidthKeys_Permutation s1 s2 :
  words s1 ≡ₚ words s2 → haveMaxWidthKeys s1 = haveMaxWidthKeys s2.
Proof.
  intros Hp. rewrite !haveMaxWidthKeys_existsb. unfold maxWidthKeys.
  cbn [existsb]. by rewrite !(existsb_Permutation _ _ _ Hp).
Qed.

Lemma splitClassNames_Permutation s1 s2 :
  words s1 ≡ₚ words s2 → splitClassNames s1 ≡ₚ splitClassNames s2.
Proof.
  intros Hp. rewrite !splitClassNames_words.
  destruct (words s1) as [|t1 r1], (words s2) as [|t2 r2]; [done| | |done].
  - by apply Permutation_nil_cons in Hp.
  - symmetry in Hp. by apply Permutation_nil_cons in Hp.
Qed.

(** The key depends on the multiset of the tokens only. *)
Lemma normalizedKey_Permutation s1 s2 w :
  words s1 ≡ₚ words s2 → normalizedKey s1 w = normalizedKey s2 w.
Proof.
  intros Hp.
  destruct (decide (words s1 = [])) as [Hn|Hn].
  { rewrite !normalizedKey_blank; [done| |done].
    rewrite Hn in Hp. destruct (words s2); [done|].
    by apply Permutation_nil_cons in Hp. }
  assert (words s2 ≠ []) as Hn2.
  { intros Hn2. rewrite Hn2 in Hp. destruct (words s1); [done|].
    symmetry in Hp. by apply Permutation_nil_cons in Hp. }
  unfold normalizedKey.
  rewrite !bool_decide_false by (by intros ->).
  unfold normalizedClassNames.
  rewrite (haveMaxWidthKeys_Permutation s1 s2 Hp).
  by rewrite (sortByMaxWidthKeys_Permutation _ _ (splitClassNames_Permutation _ _ Hp)).
Qed.

End key.

(** ** The order of the merge sequence *)

Section merge_order.
Implicit Types (l : list string) (c t x y : string).

Lemma startsWith_append s p q :
  startsWith s (p +:+ q) =
    startsWith s p && startsWith (sliceFrom (String.length p) s) q.
Proof.
  revert s. induction p as [|a p IH]; intros s.
  - by destruct s.
  - destruct s as [|b s]; [done|].
    rewrite append_String, !startsWith_cons, IH. cbn [String.length sliceFrom].
    by rewrite andb_assoc.
Qed.

Lemma tierIndex_of_None c : sliceTo 3 c ∉ maxWidthKeys → tierIndex c = None.
Proof. apply tierIndex_None. Qed.

Lemma tierIndex_of_Some c i :
  i < 4 → sliceTo 3 c = maxWidthKey i → tierIndex c = Some i.
Proof.
  intros Hi Hc. pose proof (tierIndex_spec c) as Hs.
  destruct (tierIndex c) as [j|].
  - destruct Hs as [Hj Hs]. f_equal. rewrite Hc in Hs.
    apply (maxWidthKeys_lookup i j Hi). rewrite Hs.
    by apply maxWidthKeys_lookup.
  - destruct Hs. rewrite Hc. apply in_maxWidthKeys. eauto.
Qed.

(** The test of [putLeadingToTheBack] on a token of its bucket. *)
Lemma isLeading_untagged c :
  tierIndex c = None → startsWith c ("" +:+ "leading-") = isLeading c.
Proof. intros Hc. unfold isLeading, stripTag. by rewrite Hc. Qed.

Lemma isLeading_tagged c i :
  tierIndex c = Some i →
  startsWith c (maxWidthKey i +:+ "leading-") = isLeading c.
Proof.
  intros Hc. unfold isLeading, stripTag. rewrite Hc.
  rewrite startsWith_append, (tierIndex_startsWith c i Hc).
  pose proof (tierIndex_spec c) as Hs. rewrite Hc in Hs. destruct Hs as [Hi _].
  by destruct i as [|[|[|[|i]]]]; [..|lia].
Qed.

Lemma StronglySorted_filter {A} (R : relation A) (P : A → Prop)
    `{!∀ a, Decision (P a)} (l : list A) :
  StronglySorted R l → StronglySorted R (filter P l).
Proof.
  induction 1 as [|x l Hl IH Hx]; [constructor|].
  rewrite filter_cons. case_decide; [|done].
  constructor; [done|]. apply Forall_forall.
  intros y [_ Hy]%list_elem_of_filter. by eapply Forall_forall in Hx.
Qed.

Lemma StronglySorted_impl_elem_of {A} (R R' : relation A) (l : list A) :
  (∀ a b, a ∈ l → b ∈ l → R a b → R' a b) →
  StronglySorted R l → StronglySorted R' l.
Proof.
  intros HR Hl. induction Hl as [|x l Hl IH Hx]; [constructor|].
  constructor.
  - apply IH. intros y z Hy Hz. apply HR; by right.
  - apply Forall_forall. intros y Hy. apply HR; [by left|by right|].
    by eapply Forall_forall in Hx.
Qed.

(** One bucket after [putLeadingToTheBack]. *)
Lemma bucket_sorted (P : string → Prop) `{!∀ x, Decision (P x)} tag r l :
  (∀ x, P x → bucketRank x = r ∧ startsWith x (tag +:+ "leading-") = isLeading x) →
  StronglySorted mergeOrder (putLeadingToTheBack (sort (filter P l)) tag) ∧
  Forall (λ x, bucketRank x = r) (putLeadingToTheBack (sort (filter P l)) tag).
Proof.
  intros HP.
  assert (∀ x, x ∈ sort (filter P l) → P x) as Hin.
  { intros x. rewrite sort_perm, list_elem_of_filter. by intros [? _]. }
  rewrite putLeadingToTheBack_filter. split.
  - apply StronglySorted_app_2.
    + intros x y [Hx Hxin]%list_elem_of_filter [Hy Hyin]%list_elem_of_filter.
      destruct (HP x (Hin x Hxin)) as [Hrx Hlx], (HP y (Hin y Hyin)) as [Hry Hly].
      right. split; [congruence|]. left. rewrite <-Hlx, <-Hly.
      split; [by apply Is_true_false in Hx|by apply Is_true_true].
    + eapply StronglySorted_impl_elem_of;
        [|apply StronglySorted_filter, sort_sorted].
      intros x y [Hx Hxin]%list_elem_of_filter [Hy Hyin]%list_elem_of_filter Hle.
      destruct (HP x (Hin x Hxin)) as [Hrx Hlx], (HP y (Hin y Hyin)) as [Hry Hly].
      right. split; [congruence|]. right. split; [|done]. rewrite <-Hlx, <-Hly.
      apply Is_true_false in Hx. apply Is_true_false in Hy. congruence.
    + eapply StronglySorted_impl_elem_of;
        [|apply StronglySorted_filter, sort_sorted].
      intros x y [Hx Hxin]%list_elem_of_filter [Hy Hyin]%list_elem_of_filter Hle.
      destruct (HP x (Hin x Hxin)) as [Hrx Hlx], (HP y (Hin y Hyin)) as [Hry Hly].
      right. split; [congruence|]. right. split; [|done]. rewrite <-Hlx, <-Hly.
      apply Is_true_true in Hx. apply Is_true_true in Hy. congruence.
  - apply Forall_forall. intros x. rewrite <-putLeadingToTheBack_filter.
    rewrite putLeadingToTheBack_perm. intros Hx. by apply HP, Hin.
Qed.

Lemma sorted_app_rank l1 l2 r :
  StronglySorted mergeOrder l1 → StronglySorted mergeOrder l2 →
  Forall (λ x, bucketRank x = r) l1 → Forall (λ x, r < bucketRank x) l2 →
  StronglySorted mergeOrder (l1 ++ l2) ∧ Forall (λ x, r ≤ bucketRank x) (l1 ++ l2).
Proof.
  intros H1 H2 Hr1 Hr2. split.
  - apply StronglySorted_app_2; [|done..]. intros x y Hx Hy. left.
    rewrite Forall_forall in Hr1, Hr2. rewrite (Hr1 x Hx). by apply Hr2.
  - apply Forall_app. split; eapply Forall_impl; eauto; cbn; lia.
Qed.

(** The ordering engine sorts by bucket, then [leading-] last, then
    lexicographically. *)
Lemma sortByMaxWidthKeys_sorted l :
  StronglySorted mergeOrder (sortByMaxWidthKeys l).
Proof.
  unfold sortByMaxWidthKeys.
  destruct (bucket_sorted (λ c, sliceTo 3 c ∉ maxWidthKeys) "" 0 l) as [S0 R0].
  { intros x Hx%tierIndex_of_None. split; [|by apply isLeading_untagged].
    unfold bucketRank. by rewrite Hx. }
  assert (∀ i, i < 4 →
    StronglySorted mergeOrder
      (putLeadingToTheBack (sort (filter (λ c, sliceTo 3 c = maxWidthKey i) l))
                           (maxWidthKey i)) ∧
    Forall (λ x, bucketRank x = S i)
      (putLeadingToTheBack (sort (filter (λ c, sliceTo 3 c = maxWidthKey i) l))
                           (maxWidthKey i))) as Hb.
  { intros i Hi. apply bucket_sorted. intros x Hx%tierIndex_of_Some; [|done].
    split; [|by apply isLeading_tagged]. unfold bucketRank. by rewrite Hx. }
  destruct (Hb 0) as [S1 R1]; [lia|]. destruct (Hb 1) as [S2 R2]; [lia|].
  destruct (Hb 2) as [S3 R3]; [lia|]. destruct (Hb 3) as [S4 R4]; [lia|].
  clear Hb.
  destruct (sorted_app_rank _ _ 3 S3 S4 R3) as [S34 R34].
  { eapply Forall_impl; [exact R4|]. cbn. lia. }
  destruct (sorted_app_rank _ _ 2 S2 S34 R2) as [S24 R24].
  { eapply Forall_impl; [exact R34|]. cbn. lia. }
  destruct (sorted_app_rank _ _ 1 S1 S24 R1) as [S14 R14].
  { eapply Forall_impl; [exact R24|]. cbn. lia. }
  destruct (sorted_app_rank _ _ 0 S0 S14 R0) as [S04 R04]; [|done].
  eapply Forall_impl; [exact R14|]. cbn. lia.
Qed.

End merge_order.

(** ** The class names of the merge loop *)

Section merge_sequence.
Implicit Types (l names : list string) (s key t : string) (w : option float).

Lemma noWhiteSpace_sliceFrom n t :
  noWhiteSpace t = true → noWhiteSpace (sliceFrom n t) = true.
Proof.
  revert t. induction n as [|n IH]; intros t; [by destruct t|].
  destruct t as [|a t]; [done|]. cbn [sliceFrom noWhiteSpace].
  intros [_ Ht]%andb_true_iff. by apply IH.
Qed.

Lemma splitClassNames_noWhiteSpace s :
  Forall (λ t, noWhiteSpace t = true) (splitClassNames s).
Proof.
  rewrite splitClassNames_words. pose proof (words_Forall s) as Hw.
  destruct (words s); [by repeat constructor|].
  eapply Forall_impl; [exact Hw|]. by intros ? [_ ?].
Qed.

(** The normalised class names contain no white space. *)
Lemma normalizedClassNames_noWhiteSpace s w names :
  normalizedClassNames s w = Return names →
  Forall (λ t, noWhiteSpace t = true) names.
Proof.
  unfold normalizedClassNames.
  destruct (haveMaxWidthKeys s && falsy w); [done|].
  assert (Forall (λ t, noWhiteSpace t = true)
                 (sortByMaxWidthKeys (splitClassNames s))) as Hs.
  { rewrite sortByMaxWidthKeys_perm. apply splitClassNames_noWhiteSpace. }
  intros [= <-]. destruct (haveMaxWidthKeys s); [|done].
  unfold filterByWindowWidth. apply Forall_fmap, Forall_forall.
  intros t [_ Ht]%list_elem_of_filter. unfold compose.
  rewrite Forall_forall in Hs. specialize (Hs t Ht).
  case_bool_decide; [by apply noWhiteSpace_sliceFrom|done].
Qed.

(** Lines 150-153 recover the non-empty names from the joined string. *)
Lemma splitClassNames_join names :
  Forall (λ t, noWhiteSpace t = true) names →
  splitClassNames (join names) =
    match filter (λ t, t ≠ ""%string) names with
    | [] => [""%string]
    | l => l
    end.
Proof. intros Hn. by rewrite splitClassNames_words, words_join. Qed.

Lemma exec_nil {A} (matchAt : string → option A) :
  exec matchAt "" = matchAt ""%string.
Proof. cbn. by destruct (matchAt ""%string). Qed.

End merge_sequence.

(** ** The merged style *)

Section merged_style.
Context (rt : Runtime) (tailwindStyles : gmap string Obj).
Implicit Types (st : Store) (s key p : string) (w : option float)
  (style : Obj) (res : Result).

Lemma mergeStyle_Return key style0 :
  addLetterSpacing rt tailwindStyles (addFontVariant ∅ key) key = Return style0 →
  mergeStyle rt tailwindStyles key =
    Return (foldl (mergeClassName tailwindStyles key) (style0, [])
                  (separateClassNames key)).
Proof. intros Hs. unfold mergeStyle. by rewrite Hs. Qed.

Lemma mergeStyle_Throw key e :
  addLetterSpacing rt tailwindStyles (addFontVariant ∅ key) key = Throw e →
  mergeStyle rt tailwindStyles key = Throw e.
Proof. intros Hs. unfold mergeStyle. by rewrite Hs. Qed.

Lemma addFontVariant_lookup style key :
  addFontVariant style key !! "fontVariant"%string =
    match matchAllFontVariant key with
    | [] => style !! "fontVariant"%string
    | matches => Some (VArr matches)
    end.
Proof.
  unfold addFontVariant. destruct (matchAllFontVariant key) as [|m ms]; [done|].
  rewrite bool_decide_true by (cbn; lia). by rewrite lookup_insert_eq.
Qed.

Lemma addFontVariant_lookup_ne style key p :
  p ≠ "fontVariant"%string → addFontVariant style key !! p = style !! p.
Proof.
  intros Hp. unfold addFontVariant. case_bool_decide; [|done].
  by rewrite lookup_insert_ne.
Qed.

Lemma addLetterSpacing_lookup_ne style key style' p :
  p ≠ "letterSpacing"%string →
  addLetterSpacing rt tailwindStyles style key = Return style' →
  style' !! p = style !! p.
Proof.
  intros Hp. unfold addLetterSpacing.
  destruct (exec letterSpacingAt key); [|by intros [= <-]].
  destruct (exec fontSizeAt key); [|done].
  destruct (tailwindStyles !! _); [|done].
  destruct (tailwindStyles !! _); [|done].
  intros [= <-]. by rewrite lookup_insert_ne.
Qed.

(** The three ways in which [addLetterSpacing] ends. *)
Lemma addLetterSpacing_spec style key :
  match exec letterSpacingAt key, exec fontSizeAt key with
  | None, _ => addLetterSpacing rt tailwindStyles style key = Return style
  | Some _, None =>
      addLetterSpacing rt tailwindStyles style key = Throw MissingFontSize
  | Some letterSpacingClass, Some fontSizeClass =>
      match tailwindStyles !! letterSpacingClass, tailwindStyles !! fontSizeClass with
      | Some lf, Some ff =>
          addLetterSpacing rt tailwindStyles style key =
            Return (<["letterSpacing"%string :=
                        VNum (parseFloat rt (lf !! "letterSpacing"%string) *
                              toNumber rt (ff !! "fontSize"%string))]> style)
      | _, _ => addLetterSpacing rt tailwindStyles style key = Throw TypeError
      end
  end.
Proof.
  unfold addLetterSpacing.
  destruct (exec letterSpacingAt key) as [lsc|]; [|done].
  destruct (exec fontSizeAt key) as [fsc|]; [|done].
  destruct (tailwindStyles !! lsc); [|done].
  by destruct (tailwindStyles !! fsc).
Qed.

(** Without a [tracking-] match, the loop starts from the style that
    [addFontVariant] left. *)
Lemma mergeStyle_no_tracking key :
  exec letterSpacingAt key = None →
  mergeStyle rt tailwindStyles key =
    Return (foldl (mergeClassName tailwindStyles key)
                  (addFontVariant ∅ key, []) (separateClassNames key)).
Proof.
  intros Hnone. apply mergeStyle_Return.
  pose proof (addLetterSpacing_spec (addFontVariant ∅ key) key) as Hspec.
  by rewrite Hnone in Hspec.
Qed.

(** The variable resolver keeps a plain value of a public property. *)
Lemma useVariables_plain style p v :
  startsWith p "--" = false → style !! p = Some v → plainValue v →
  useVariables rt style !! p = Some v.
Proof.
  intros Hp Hv Hplain. rewrite useVariables_lookup, Hv. cbn.
  unfold useVariablesEntry. rewrite Hp. destruct v as [s| | | |]; [|done..].
  rewrite replaceVar_firstPlaceholder.
  by apply firstPlaceholder_None in Hplain as ->.
Qed.

Lemma tailwind_Return st s w key style warns :
  reachable rt tailwindStyles st →
  normalizedKey s w = Return key → key ≠ ""%string → inherited key = false →
  mergeStyle rt tailwindStyles key = Return (style, warns) →
  ∃ res, tailwind rt tailwindStyles st s w = Return res ∧
         deref (store res) (ref res) = Some (useVariables rt style).
Proof.
  intros Hst%reachable_inv Hk Hne Hi Hm. rewrite tailwind_eq, Hk.
  by eapply lookupOrMerge_Return.
Qed.

Lemma tailwind_Throw st s w key e :
  reachable rt tailwindStyles st →
  normalizedKey s w = Return key → key ≠ ""%string → inherited key = false →
  mergeStyle rt tailwindStyles key = Throw e →
  tailwind rt tailwindStyles st s w = Throw e.
Proof.
  intros Hst%reachable_inv Hk Hne Hi Hm. rewrite tailwind_eq, Hk.
  by eapply lookupOrMerge_Throw.
Qed.

Lemma tailwind_Return_inv st s w key res :
  reachable rt tailwindStyles st →
  normalizedKey s w = Return key → key ≠ ""%string →
  tailwind rt tailwindStyles st s w = Return res →
  ∃ style warns,
    mergeStyle rt tailwindStyles key = Return (style, warns) ∧
    deref (store res) (ref res) = Some (useVariables rt style).
Proof.
  intros Hst%reachable_inv Hk Hne. rewrite tailwind_eq, Hk.
  by apply lookupOrMerge_Return_inv.
Qed.

End merged_style.

(** ** The buckets *)

Section buckets.
Implicit Types (l : list string) (c t : string).

Lemma filter_ext_elem_of {A} (P Q : A → Prop) `{!∀ a, Decision (P a)}
    `{!∀ a, Decision (Q a)} (l : list A) :
  (∀ a, a ∈ l → P a ↔ Q a) → filter P l = filter Q l.
Proof.
  induction l as [|a l IH]; intros HPQ; [done|].
  rewrite !filter_cons. rewrite IH by (intros b Hb; apply HPQ; by right).
  destruct (decide (P a)) as [Ha|Ha], (decide (Q a)) as [Hb|Hb]; try done.
  - destruct Hb. apply HPQ; [by left|done].
  - destruct Ha. apply HPQ; [by left|done].
Qed.

Lemma bucket_untagged l :
  sort (filter (λ c, sliceTo 3 c ∉ maxWidthKeys) l) = sortedBucket None l.
Proof.
  unfold sortedBucket. f_equal. apply list_filter_iff. intros c.
  by rewrite tierIndex_None.
Qed.

Lemma bucket_tagged l i :
  i < 4 →
  sort (filter (λ c, sliceTo 3 c = maxWidthKey i) l) = sortedBucket (Some i) l.
Proof.
  intros Hi. unfold sortedBucket. f_equal. apply list_filter_iff. intros c.
  split; [by apply tierIndex_of_Some|]. intros Hc.
  pose proof (tierIndex_spec c) as Hs. rewrite Hc in Hs. apply Hs.
Qed.

Lemma elem_of_sortedBucket l i t : t ∈ sortedBucket i l → tierIndex t = i.
Proof.
  unfold sortedBucket. rewrite sort_perm, list_elem_of_filter. by intros [? _].
Qed.

(** [putLeadingToTheBack] on a bucket: the tokens that are not [leading-]
    in their sorted order, then the [leading-] ones in their sorted order. *)
Lemma putLeadingToTheBack_bucket l i tag :
  (∀ t, tierIndex t = i → startsWith t (tag +:+ "leading-") = isLeading t) →
  putLeadingToTheBack (sortedBucket i l) tag =
    filter (λ t, isLeading t = false) (sortedBucket i l) ++
    filter (λ t, isLeading t = true) (sortedBucket i l).
Proof.
  intros Htag. rewrite putLeadingToTheBack_filter. f_equal.
  - apply filter_ext_elem_of. intros t Ht%elem_of_sortedBucket.
    rewrite (Htag t Ht). by rewrite Is_true_false.
  - apply filter_ext_elem_of. intros t Ht%elem_of_sortedBucket.
    rewrite (Htag t Ht). by rewrite Is_true_true.
Qed.

Lemma sortByMaxWidthKeys_buckets l :
  sortByMaxWidthKeys l =
    concat (map (λ i, filter (λ t, isLeading t = false) (sortedBucket i l) ++
                      filter (λ t, isLeading t = true) (sortedBucket i l))
                buckets).
Proof.
  unfold sortByMaxWidthKeys.
  rewrite bucket_untagged, !bucket_tagged by lia.
  rewrite (putLeadingToTheBack_bucket l None)
    by (intros t; apply isLeading_untagged).
  rewrite !(putLeadingToTheBack_bucket l (Some _))
    by (intros t; apply isLeading_tagged).
  cbn [buckets map concat]. by rewrite app_nil_r.
Qed.

End buckets.

(** ** The leftmost placeholder *)

Section leftmost.
Implicit Types (s pre name post : string).

Lemma length_append s t :
  String.length (s +:+ t) = String.length s + String.length t.
Proof. induction s as [|a s IH]; [done|]. rewrite append_String. cbn. by rewrite IH. Qed.

Lemma firstPlaceholder_leftmost p n rest pre name post :
  validName n →
  firstPlaceholder (p +:+ placeholder n +:+ rest) = Some (pre, name, post) →
  String.length pre ≤ String.length p.
Proof.
  intros Hn. revert pre name post.
  induction p as [|a p IH]; intros pre name post.
  - change ("" +:+ placeholder n +:+ rest) with (placeholder n +:+ rest).
    pose proof (varAt_placeholder n rest Hn) as Hv.
    destruct (placeholder n +:+ rest); cbn [firstPlaceholder]; rewrite Hv;
      by intros [= <- _ _].
  - rewrite append_String. cbn [firstPlaceholder].
    destruct (varAt _) as [[??]|]; [intros [= <- _ _]; cbn; lia|].
    destruct (firstPlaceholder _) as [[[pre' n'] p']|]; [|done].
    intros [= <- _ _]. cbn. specialize (IH pre' n' p' eq_refl). lia.
Qed.

(** Nothing before the leftmost placeholder is a placeholder. *)
Lemma firstPlaceholder_before s pre name post :
  firstPlaceholder s = Some (pre, name, post) → ¬ containsPlaceholder pre.
Proof.
  intros Hs (p & n & q & Hn & ->).
  pose proof (firstPlaceholder_Some _ _ _ _ Hs) as [Heq _].
  rewrite Heq, !append_assoc in Hs.
  apply firstPlaceholder_leftmost in Hs; [|done].
  rewrite !length_append in Hs. unfold placeholder in Hs.
  rewrite !length_append in Hs. cbn in Hs. lia.
Qed.

End leftmost.

(** ** Errors *)

Section errors.
Context (rt : Runtime) (tailwindStyles : gmap string Obj).
Implicit Types (st : Store) (s key : string) (w : option float) (e : error).

Lemma normalizedKey_Throw s w e :
  normalizedKey s w = Throw e ↔
    e = MissingWindowWidth w ∧ haveMaxWidthKeys s = true ∧ falsy w = true.
Proof.
  unfold normalizedKey, normalizedClassNames. case_bool_decide as Hs.
  - subst s. split; [done|]. by intros (_ & ? & _).
  - destruct (haveMaxWidthKeys s), (falsy w); cbn; split; try done;
      try (by intros [= <-]); by intros (-> & ? & ?).
Qed.

Lemma normalizedKey_Return s w :
  haveMaxWidthKeys s && falsy w = false → ∃ key, normalizedKey s w = Return key.
Proof.
  intros Hh. unfold normalizedKey, normalizedClassNames.
  case_bool_decide; [by eexists|]. rewrite Hh. by eexists.
Qed.

Lemma mergeStyle_Throw_inv key e :
  mergeStyle rt tailwindStyles key = Throw e →
  addLetterSpacing rt tailwindStyles (addFontVariant ∅ key) key = Throw e.
Proof.
  unfold mergeStyle. destruct (addLetterSpacing _ _ _ _); [|done..].
  by intros [= ->].
Qed.

Lemma lookupOrMerge_Throw_inv st key e :
  lookupOrMerge rt tailwindStyles st key = Throw e →
  key ≠ ""%string ∧ cache st !! key = None ∧
  mergeStyle rt tailwindStyles key = Throw e.
Proof.
  unfold lookupOrMerge. case_bool_decide; [done|].
  destruct (cache st !! key); [done|]. destruct (inherited key); [done|].
  by destruct (mergeStyle rt tailwindStyles key) as [e'|[??]|];
    [intros [= ->]|..].
Qed.

(** [addLetterSpacing] throws for a missing font size exactly when the
    letter-spacing expression matches and the font-size one does not. *)
Lemma addLetterSpacing_MissingFontSize style key :
  addLetterSpacing rt tailwindStyles style key = Throw MissingFontSize ↔
    is_Some (exec letterSpacingAt key) ∧ exec fontSizeAt key = None.
Proof.
  pose proof (addLetterSpacing_spec rt tailwindStyles style key) as Hspec.
  destruct (exec letterSpacingAt key) as [lsc|].
  - destruct (exec fontSizeAt key) as [fsc|].
    + destruct (tailwindStyles !! lsc), (tailwindStyles !! fsc);
        rewrite Hspec; split; (done || by intros [_ ?]).
    + rewrite Hspec. split; [|done]. intros _. split; [by eexists|done].
  - rewrite Hspec. split; [done|]. by intros [[? ?] _].
Qed.


End errors.

(** A third way to fail: when both expressions match but the table lacks the
    matched letter-spacing class, line 57 destructures [undefined]. *)
Lemma unknown_tracking_class_throws :
  exec letterSpacingAt "text-lg tracking-foo" = Some "tracking-foo"%string ∧
  exec fontSizeAt "text-lg tracking-foo" = Some "text-lg"%string ∧
  sampleStyles !! "tracking-foo"%string = None ∧
  tailwind sampleRuntime sampleStyles create "text-lg tracking-foo" None
    = Throw TypeError.
Proof. split_and!; vm_compute; reflexivity. Qed.

(** Line 96 looks for the tags anywhere in the string: the missing-width
    error is raised for a string none of whose tokens carries a tag. *)
Lemma width_error_without_tagged_token :
  splitClassNames "foo-sm:bar" = ["foo-sm:bar"%string] ∧
  tierIndex "foo-sm:bar" = None ∧
  tailwind sampleRuntime sampleStyles create "foo-sm:bar" None
    = Throw (MissingWindowWidth None).
Proof. split_and!; vm_compute; reflexivity. Qed.

(** Lines 139 and 158 see the members that the cache and the table inherit
    from [Object.prototype]: a key that is the name of one returns the
    member, and such a class name is neither merged nor warned about. *)
Lemma inherited_names_are_found :
  tailwind sampleRuntime sampleStyles create "constructor" None
    = ReturnInherited "constructor" ∧
  tailwind sampleRuntime sampleStyles create "bg-red-500 toString" None =
    Return {| ref := Some 1;
              store := {| cache := {[ ""%string := 0;
                                      "bg-red-500 toString"%string := 1 ]};
                          heap := [∅; {[ "backgroundColor"%string :=
                                           VStr "#f56565" ]}] |};
              warnings := [] |}.
Proof. split; vm_compute; reflexivity. Qed.

(** ** The regular expressions *)

Section regex.
Implicit Types (s key m pre rest : string).

(** Two occurrences of font-variant keywords never overlap. *)
Lemma fontVariantAt_no_overlap s k j :
  fontVariantAt s = Some k → 0 < j < String.length k →
  fontVariantAt (sliceFrom j s) = None.
Proof.
  unfold fontVariantAt at 1, fontVariantKeywords. cbn [List.find].
  destruct (startsWith s "oldstyle-nums") eqn:H1.
  { intros [= <-] Hj. apply (startsWith_sliceFrom _ "oldstyle-nums") in H1.
    rewrite H1. generalize (sliceFrom (String.length "oldstyle-nums") s).
    intros rest. cbn [String.length] in Hj.
    do 13 (destruct j as [|j]; [try lia; vm_compute; reflexivity|]). lia. }
  destruct (startsWith s "lining-nums") eqn:H2.
  { intros [= <-] Hj. apply (startsWith_sliceFrom _ "lining-nums") in H2.
    rewrite H2. generalize (sliceFrom (String.length "lining-nums") s).
    intros rest. cbn [String.length] in Hj.
    do 11 (destruct j as [|j]; [try lia; vm_compute; reflexivity|]). lia. }
  destruct (startsWith s "tabular-nums") eqn:H3.
  { intros [= <-] Hj. apply (startsWith_sliceFrom _ "tabular-nums") in H3.
    rewrite H3. generalize (sliceFrom (String.length "tabular-nums") s).
    intros rest. cbn [String.length] in Hj.
    do 12 (destruct j as [|j]; [try lia; vm_compute; reflexivity|]). lia. }
  destruct (startsWith s "proportional-nums") eqn:H4; [|done].
  intros [= <-] Hj. apply (startsWith_sliceFrom _ "proportional-nums") in H4.
  rewrite H4. generalize (sliceFrom (String.length "proportional-nums") s).
  intros rest. cbn [String.length] in Hj.
  do 17 (destruct j as [|j]; [try lia; vm_compute; reflexivity|]). lia.
Qed.

Lemma matchAllFrom_occurrences s n :
  (∀ j, j < n → fontVariantAt (sliceFrom j s) = None) →
  matchAllFrom n s = keywordOccurrences s.
Proof.
  revert n. induction s as [|a s IH]; intros n Hn; [done|].
  cbn [matchAllFrom keywordOccurrences]. destruct n as [|n].
  - destruct (fontVariantAt (String a s)) as [k|] eqn:Hk.
    + f_equal. apply IH. intros j Hj.
      apply (fontVariantAt_no_overlap (String a s) k (S j)); [done|lia].
    + apply IH. intros j Hj. lia.
  - pose proof (Hn 0 ltac:(lia)) as H0. cbn [sliceFrom] in H0. rewrite H0.
    apply IH. intros j Hj. apply (Hn (S j)). lia.
Qed.

(** [matchAll] returns every occurrence of a keyword, in order. *)
Lemma matchAllFontVariant_occurrences s :
  matchAllFontVariant s = keywordOccurrences s.
Proof. apply matchAllFrom_occurrences. intros j Hj. lia. Qed.

Lemma exec_Some {A} (matchAt : string → option A) s (m : A) :
  exec matchAt s = Some m →
  ∃ pre rest, s = pre +:+ rest ∧ matchAt rest = Some m.
Proof.
  induction s as [|a s IH]; cbn [exec].
  - destruct (matchAt ""%string) eqn:Hm; [|done].
    intros [= <-]. by exists ""%string, ""%string.
  - destruct (matchAt (String a s)) eqn:Hm.
    + intros [= <-]. by exists ""%string, (String a s).
    + intros (pre & rest & -> & ?)%IH. by exists (String a pre), rest.
Qed.

Lemma includes_append pre rest m :
  startsWith rest m = true → includes (pre +:+ rest) m = true.
Proof.
  intros Hm. induction pre as [|a pre IH]; [by apply startsWith_includes|].
  rewrite append_String. cbn [includes]. rewrite IH. apply orb_true_r.
Qed.

Lemma allChars_takeWhile p s : allChars p (takeWhile p s) = true.
Proof.
  induction s as [|a s IH]; [done|]. cbn [takeWhile].
  destruct (p a) eqn:Ha; [|done]. cbn. by rewrite Ha.
Qed.

(** What [LETTER_SPACING_REGEX] matches: [tracking-] and the lower-case
    letters that follow it, at least one. *)
Lemma letterSpacingAt_Some rest m :
  letterSpacingAt rest = Some m →
  ∃ letters, m = "tracking-" +:+ letters ∧ letters ≠ ""%string ∧
             allChars isLowerCase letters = true ∧ startsWith rest m = true.
Proof.
  unfold letterSpacingAt. destruct (startsWith rest "tracking-") eqn:Ht; [|done].
  apply (startsWith_sliceFrom _ "tracking-") in Ht. cbn [String.length] in Ht.
  revert Ht. generalize (sliceFrom 9 rest). intros r Ht.
  case_bool_decide as Hl; [|done]. intros [= <-].
  exists (takeWhile isLowerCase r). split_and!; [done..|apply allChars_takeWhile|].
  rewrite Ht. rewrite <-(takeWhile_dropWhile isLowerCase r) at 1.
  rewrite <-!append_assoc. apply startsWith_app.
Qed.

(** What [FONT_SIZE_REGEX] matches: [text-] and one of the ten sizes. *)
Lemma fontSizeAt_Some rest m :
  fontSizeAt rest = Some m →
  ∃ size, size ∈ fontSizeNames ∧ m = "text-" +:+ size ∧
          startsWith rest m = true.
Proof.
  unfold fontSizeAt. destruct (startsWith rest "text-") eqn:Ht; [|done].
  apply (startsWith_sliceFrom _ "text-") in Ht. cbn [String.length] in Ht.
  revert Ht. generalize (sliceFrom 5 rest). intros r Ht.
  destruct (List.find (startsWith r) fontSizeNames) as [size|] eqn:Hf; [|done].
  intros [= <-]. apply find_some in Hf as [Hin Hsize].
  exists size. split_and!; [by apply list_elem_of_In|done|].
  rewrite Ht. apply (startsWith_sliceFrom _ size) in Hsize. rewrite Hsize.
  rewrite <-append_assoc. apply startsWith_app.
Qed.

Lemma exec_append {A} (matchAt : string → option A) pre rest :
  is_Some (matchAt rest) → is_Some (exec matchAt (pre +:+ rest)).
Proof.
  intros Hm. induction pre as [|a pre IH].
  - change ("" +:+ rest) with rest.
    destruct rest; cbn [exec]; by destruct (matchAt _).
  - rewrite append_String. cbn [exec]. by destruct (matchAt (String a _)).
Qed.

(** Every [tracking-] that a lower-case letter follows is found. *)
Lemma letterSpacingAt_complete pre a post :
  isLowerCase a = true →
  is_Some (exec letterSpacingAt (pre +:+ "tracking-" +:+ String a post)).
Proof.
  intros Ha. apply exec_append. unfold letterSpacingAt.
  rewrite startsWith_app, (sliceFrom_app "tracking-"). cbn [takeWhile].
  rewrite Ha. by rewrite bool_decide_true.
Qed.

(** Every [text-<size>] is found. *)
Lemma fontSizeAt_complete pre size post :
  size ∈ fontSizeNames →
  is_Some (exec fontSizeAt (pre +:+ "text-" +:+ size +:+ post)).
Proof.
  intros Hin. apply exec_append. unfold fontSizeAt.
  rewrite startsWith_app, (sliceFrom_app "text-").
  destruct (List.find _ fontSizeNames) as [m|] eqn:Hf; [done|].
  apply list_elem_of_In in Hin.
  apply (find_none _ _ Hf) in Hin. by rewrite startsWith_app in Hin.
Qed.

End regex.

(** ** The token that decides a property *)

Section decides.
Context (rt : Runtime) (tailwindStyles : gmap string Obj).
Implicit Types (st : Store) (s key p : string) (w : option float).


Lemma filter_untagged (l : list string) :
  Forall (λ t, tierIndex t = None) l →
  map stripTag (filter (λ t, tierIndex t = None) l) = l.
Proof.
  induction 1 as [|t l Ht Hl IH]; [done|].
  rewrite filter_cons, decide_True by done. cbn [map]. rewrite IH.
  unfold stripTag. by rewrite Ht.
Qed.

(** Lines 96-131 for any width argument. *)
Lemma normalizedClassNames_keptBy s w names :
  normalizedClassNames s w = Return names →
  names = map stripTag (filter (keptBy w)
                               (sortByMaxWidthKeys (splitClassNames s))).
Proof.
  destruct w as [x|].
  - rewrite normalizedClassNames_spec.
    destruct (haveMaxWidthKeys s && falsy (Some x)); [done|]. by intros [= <-].
  - unfold normalizedClassNames. destruct (haveMaxWidthKeys s) eqn:Hh; [done|].
    cbn [andb]. intros [= <-]. symmetry. apply filter_untagged.
    apply Forall_forall. intros t Ht. rewrite elem_of_sortByMaxWidthKeys in Ht.
    destruct (tierIndex t) as [i|] eqn:Hi; [|done].
    by rewrite (tierIndex_haveMaxWidthKeys s t i) in Hh.
Qed.

Lemma join_nonempty (l : list string) t :
  t ∈ l → t ≠ ""%string → join l ≠ ""%string.
Proof.
  intros Ht Hne. induction l as [|u l IH]; [by apply elem_of_nil in Ht|].
  rewrite join_cons. destruct l as [|u' l].
  - apply list_elem_of_singleton in Ht. by subst u.
  - destruct u; [discriminate|discriminate].
Qed.



End decides.

(** ** The shape of the store *)

Section store_shape.
Context (rt : Runtime) (tailwindStyles : gmap string Obj).
Implicit Types (st : Store) (s key : string) (w : option float) (res : Result).

Lemma create_wf : storeWf create.
Proof.
  unfold create. split_and!; cbn [cache heap].
  - intros key r [_ <-]%lookup_singleton_Some. cbn. lia.
  - intros key1 key2 r [<- _]%lookup_singleton_Some [<- _]%lookup_singleton_Some.
    done.
  - by intros key r [<- _]%lookup_singleton_Some.
Qed.

(** What a lookup does to the store: nothing, or one new key that holds the
    address of one new object at the end of the heap. *)
Lemma lookupOrMerge_store st key res :
  lookupOrMerge rt tailwindStyles st key = Return res →
  store res = st ∨
  ∃ o, cache st !! key = None ∧ inherited key = false ∧
       ref res = Some (length (heap st)) ∧
       store res = {| cache := <[key := length (heap st)]> (cache st);
                      heap := heap st ++ [o] |}.
Proof.
  unfold lookupOrMerge. case_bool_decide as Hk.
  { intros [= <-]. by left. }
  destruct (cache st !! key) as [r|] eqn:Hr.
  { intros [= <-]. by left. }
  destruct (inherited key); [done|].
  destruct (mergeStyle rt tailwindStyles key) as [|[style warns]|]; [done| |done].
  intros [= <-]. right. by eexists.
Qed.

Lemma lookupOrMerge_wf st key res :
  storeWf st →
  lookupOrMerge rt tailwindStyles st key = Return res →
  storeWf (store res).
Proof.
  intros (Hb & Hi & Hm) [->|(o & Hmiss & Hnew & _ & ->)]%lookupOrMerge_store;
    [done|].
  split_and!; cbn [cache heap].
  - intros key' r. rewrite length_app. cbn [length].
    destruct (decide (key' = key)) as [->|Hne].
    + rewrite lookup_insert_eq. intros [= <-]. lia.
    + rewrite lookup_insert_ne by done. intros ?%Hb. lia.
  - intros key1 key2 r.
    destruct (decide (key1 = key)) as [->|Hne1];
      destruct (decide (key2 = key)) as [->|Hne2]; [done|..].
    + rewrite lookup_insert_eq, lookup_insert_ne by done.
      intros [= <-] ?%Hb. lia.
    + rewrite lookup_insert_eq, lookup_insert_ne by done.
      intros ?%Hb [= <-]. lia.
    + rewrite !lookup_insert_ne by done. apply Hi.
  - intros key' r. destruct (decide (key' = key)) as [->|Hne]; [done|].
    rewrite lookup_insert_ne by done. apply Hm.
Qed.

Lemma reachable_wf st : reachable rt tailwindStyles st → storeWf st.
Proof.
  induction 1 as [|st s w res _ IH Hcall]; [apply create_wf|].
  rewrite tailwind_eq in Hcall.
  destruct (normalizedKey s w) as [|key|]; [done| |done].
  by eapply lookupOrMerge_wf.
Qed.

(** The returned reference is the one that the cache holds for the key
    after the call. *)
Lemma lookupOrMerge_ref st key res :
  lookupOrMerge rt tailwindStyles st key = Return res →
  ref res = cache (store res) !! key.
Proof.
  unfold lookupOrMerge. case_bool_decide as Hk.
  { intros [= <-]. by subst. }
  destruct (cache st !! key) as [r|] eqn:Hr.
  { by intros [= <-]. }
  destruct (inherited key); [done|].
  destruct (mergeStyle rt tailwindStyles key) as [|[style warns]|]; [done| |done].
  intros [= <-]. cbn. by rewrite lookup_insert_eq.
Qed.

Lemma lookupOrMerge_object st key res :
  cacheInv rt tailwindStyles st →
  lookupOrMerge rt tailwindStyles st key = Return res →
  ∃ r o, ref res = Some r ∧ heap (store res) !! r = Some o ∧
         ∀ k, startsWith k "--" = true → o !! k = None.
Proof.
  intros Hinv Hres. destruct (decide (key = ""%string)) as [->|Hne].
  - rewrite lookupOrMerge_empty in Hres by done. injection Hres as <-.
    exists 0, ∅. split_and!; [done|apply Hinv|done].
  - destruct (lookupOrMerge_Return_inv _ _ _ _ _ Hinv Hne Hres)
      as (style & warns & _ & Hd).
    destruct (ref res) as [r|]; [|done]. cbn in Hd.
    exists r, (useVariables rt style). split_and!; [done..|].
    intros k Hk. rewrite useVariables_lookup.
    destruct (style !! k) as [v|]; [|done]. cbn. unfold useVariablesEntry.
    by rewrite Hk.
Qed.

End store_shape.

(** ** Tokens and keys *)

Section tokens.
Implicit Types (s t : string) (l : list string) (w : option float).

Lemma words_nil_allWhiteSpace s : words s = [] → allWhiteSpace s = true.
Proof.
  induction s as [|a s IH]; [done|]. rewrite words_cons. cbn [allWhiteSpace].
  destruct (isWhiteSpace a); [exact IH|done].
Qed.

Lemma filter_all {A} (P : A → Prop) `{!∀ x, Decision (P x)} (l : list A) :
  Forall P l → filter P l = l.
Proof.
  induction 1 as [|x l Hx _ IH]; [done|].
  by rewrite filter_cons, decide_True, IH.
Qed.

Lemma join_inj l1 l2 :
  Forall (λ t, t ≠ ""%string ∧ noWhiteSpace t = true) l1 →
  Forall (λ t, t ≠ ""%string ∧ noWhiteSpace t = true) l2 →
  join l1 = join l2 → l1 = l2.
Proof.
  intros H1 H2 Hj.
  assert (∀ l, Forall (λ t, t ≠ ""%string ∧ noWhiteSpace t = true) l →
               words (join l) = l) as Hw.
  { intros l Hl. rewrite words_join.
    - apply filter_all. eapply Forall_impl; [exact Hl|]. by intros ? [? _].
    - eapply Forall_impl; [exact Hl|]. by intros ? [_ ?]. }
  by rewrite <-(Hw l1), <-(Hw l2), Hj.
Qed.

Lemma sortByMaxWidthKeys_Forall (P : string → Prop) l :
  Forall P l → Forall P (sortByMaxWidthKeys l).
Proof. by rewrite sortByMaxWidthKeys_perm. Qed.

(** Without a tag anywhere in the input, the key is the ordered tokens
    joined by single spaces. *)
Lemma normalizedKey_untagged s w :
  haveMaxWidthKeys s = false →
  normalizedKey s w = Return (join (sortByMaxWidthKeys (words s))).
Proof.
  intros Hh. unfold normalizedKey, normalizedClassNames. rewrite Hh.
  case_bool_decide as Hs; [by subst s|]. cbn [andb].
  rewrite splitClassNames_words.
  destruct (words s) as [|t r] eqn:Hw; [|done]. done.
Qed.

End tokens.

(** ** The class names of [getColor] *)

Section color.
Context (rt : Runtime) (tailwindStyles : gmap string Obj).
Implicit Types (st : Store) (s k name pre rest : string).

Lemma join_head t (r : list string) :
  join (t :: r) = t +:+ match r with [] => ""%string | _ => " " +:+ join r end.
Proof.
  rewrite join_cons. destruct r; [|done].
  induction t as [|a t IH]; [done|]. by rewrite append_String, <-IH.
Qed.

Lemma split_prefixAfterSpaces name :
  ∃ t r, split name = t :: r ∧
         t +:+ match map (λ c, "bg-" +:+ c) r with
               | [] => ""%string
               | l => " " +:+ join l
               end = prefixAfterSpaces name.
Proof.
  induction name as [|a s (t & r & Hs & IH)]; [by exists ""%string, []|].
  cbn [split prefixAfterSpaces]. rewrite Hs. case_decide as Ha.
  - exists ""%string, (t :: r). split; [done|]. cbn [map].
    rewrite join_head, (append_assoc "bg-" t), <-IH. by destruct r.
  - exists (String a t), r. split; [done|]. rewrite <-IH. reflexivity.
Qed.

(** Line 172: the class names that [getColor] hands to [tailwind]. *)
Lemma getColor_classNames name :
  join (map (λ className, "bg-" +:+ className) (split name))
    = "bg-" +:+ prefixAfterSpaces name.
Proof.
  destruct (split_prefixAfterSpaces name) as (t & r & -> & <-).
  cbn [map]. rewrite join_head, (append_assoc "bg-" t). by destruct r.
Qed.

Lemma includes_Some s k :
  includes s k = true → ∃ pre rest, s = pre +:+ rest ∧ startsWith rest k = true.
Proof.
  induction s as [|a s IH]; cbn [includes].
  - rewrite orb_false_r. intros H. by exists ""%string, ""%string.
  - intros [H|H]%orb_true_iff.
    + by exists ""%string, (String a s).
    + destruct (IH H) as (pre & rest & -> & ?). by exists (String a pre), rest.
Qed.

Lemma prefixAfterSpaces_app pre rest :
  prefixAfterSpaces (pre +:+ rest)
    = prefixAfterSpaces pre +:+ prefixAfterSpaces rest.
Proof.
  induction pre as [|a pre IH]; [done|].
  rewrite append_String. cbn [prefixAfterSpaces]. rewrite IH.
  case_decide; [|by rewrite append_String]. by rewrite append_assoc.
Qed.

Lemma startsWith_prefixAfterSpaces rest k :
  noWhiteSpace k = true → startsWith rest k = true →
  startsWith (prefixAfterSpaces rest) k = true.
Proof.
  revert rest. induction k as [|b k IH]; intros rest; [intros _ _; apply startsWith_nil|].
  destruct rest as [|a rest]; [done|]. cbn [noWhiteSpace].
  intros [Hb Hk]%andb_true_iff. rewrite startsWith_cons.
  intros [Hab Hr]%andb_true_iff. apply bool_decide_eq_true in Hab. subst b.
  cbn [prefixAfterSpaces]. case_decide as Ha; [by subst a|].
  rewrite startsWith_cons, bool_decide_true by done. by apply IH.
Qed.

Lemma includes_getColor_classNames name k :
  noWhiteSpace k = true → includes name k = true →
  includes ("bg-" +:+ prefixAfterSpaces name) k = true.
Proof.
  intros Hk (pre & rest & -> & Hs)%includes_Some.
  rewrite prefixAfterSpaces_app, <-append_assoc.
  by apply includes_append, startsWith_prefixAfterSpaces.
Qed.

Lemma includes_join_space (t u : string) (l : list string) :
  includes (join (t :: u :: l)) " " = true.
Proof.
  rewrite join_cons. apply includes_append, startsWith_app.
Qed.

(** The normalised string of the class names of [getColor] is never the
    name of an inherited member: it is one class name that starts with
    ["bg-"], or it contains a space. *)
Lemma getColor_key_not_inherited r key :
  normalizedKey ("bg-" +:+ r) None = Return key → inherited key = false.
Proof.
  set (s := ("bg-" +:+ r)%string). intros Hk.
  assert (∃ (t : string) (rest : list string),
            words s = t :: rest ∧ startsWith t "bg-" = true)
    as (t & rest & Hw & Ht).
  { exists (String "b" (String "g" (String "-" (wordsGo r).1))), (wordsGo r).2.
    split; [|apply (startsWith_app _ "bg-")]. unfold s.
    change ("bg-" +:+ r) with (String "b" (String "g" (String "-" r))).
    by rewrite words_cons, !wordsGo_cons. }
  unfold normalizedKey in Hk. rewrite bool_decide_false in Hk by done.
  destruct (normalizedClassNames s None) as [|names|] eqn:Hn; [done| |done].
  injection Hk as <-. unfold normalizedClassNames in Hn.
  destruct (haveMaxWidthKeys s); [done|]. cbn [andb] in Hn.
  injection Hn as <-. rewrite splitClassNames_words, Hw.
  pose proof (sortByMaxWidthKeys_perm (t :: rest)) as Hp.
  destruct (sortByMaxWidthKeys (t :: rest)) as [|a [|b l]].
  - by apply Permutation_nil_cons in Hp.
  - apply Permutation_length in Hp as Hl. destruct rest; [|done].
    apply Permutation_singleton_r in Hp. injection Hp as ->.
    by apply not_inherited_bg.
  - apply (not_inherited (λ k, includes k " ")); [|vm_compute; reflexivity].
    apply includes_join_space.
Qed.

End color.

(** ** The resolvers and the origin of a property *)

Section resolvers.
Context (rt : Runtime) (tailwindStyles : gmap string Obj).
Implicit Types (st : Store) (s key p t : string) (w : option float).

(** IEEE 754: a product with NaN is NaN. *)
Lemma mul_nan (x : float) : (x * nan)%float = nan.
Proof.
  apply Prim2SF_inj. rewrite mul_spec.
  assert (Prim2SF nan = SpecFloat.S754_nan) as -> by reflexivity.
  unfold SF64mul, SpecFloat.SFmul. by destruct (Prim2SF x).
Qed.

Lemma keywordOccurrences_nil s :
  keywordOccurrences s = [] ↔
  Forall (λ k, includes s k = false) fontVariantKeywords.
Proof.
  induction s as [|a s IH].
  - split; [|done]. intros _. by repeat constructor.
  - cbn [keywordOccurrences]. unfold fontVariantAt, fontVariantKeywords in *.
    rewrite !Forall_cons, Forall_nil in IH. rewrite !Forall_cons, Forall_nil.
    cbn [includes List.find].
    destruct (startsWith (String a s) "oldstyle-nums") eqn:H1;
      [split; [done|by intros (? & ? & ? & ? & ?)]|].
    destruct (startsWith (String a s) "lining-nums") eqn:H2;
      [split; [done|by intros (? & ? & ? & ? & ?)]|].
    destruct (startsWith (String a s) "tabular-nums") eqn:H3;
      [split; [done|by intros (? & ? & ? & ? & ?)]|].
    destruct (startsWith (String a s) "proportional-nums") eqn:H4;
      [split; [done|by intros (? & ? & ? & ? & ?)]|].
    cbn [orb]. exact IH.
Qed.

Lemma keywordOccurrences_Forall s :
  Forall (λ k, k ∈ fontVariantKeywords) (keywordOccurrences s).
Proof.
  induction s as [|a s IH]; [done|]. cbn [keywordOccurrences].
  destruct (fontVariantAt (String a s)) as [k|] eqn:Hk; [|done].
  constructor; [|done]. unfold fontVariantAt in Hk.
  apply find_some in Hk as [Hk _]. by apply list_elem_of_In.
Qed.

(** What the loop leaves under a property comes from the style it started
    with or from the fragment of one of its class names. *)
Lemma foldl_merge_origin key seq (acc : Obj * list Warning) p v :
  (foldl (mergeClassName tailwindStyles key) acc seq).1 !! p = Some v →
  acc.1 !! p = Some v ∨
  ∃ t fragment, t ∈ seq ∧ tailwindStyles !! t = Some fragment ∧
                fragment !! p = Some v.
Proof.
  revert acc. induction seq as [|t seq IH]; intros acc; [by left|].
  cbn [foldl]. intros [Hacc|(t' & f & Ht' & Hf & Hp)]%IH.
  - unfold mergeClassName in Hacc.
    destruct (tailwindStyles !! t) as [f|] eqn:Hf;
      [|left; by destruct (inherited t)].
    cbn in Hacc. unfold assign in Hacc.
    apply lookup_union_Some_raw in Hacc as [Hp|[_ Hp]]; [|by left].
    right. exists t, f. split; [by left|done].
  - right. exists t', f. split; [by right|done].
Qed.

Lemma elem_of_separateClassNames_join names t :
  Forall (λ t, noWhiteSpace t = true) names → join names ≠ ""%string →
  t ∈ separateClassNames (join names) → t ∈ names.
Proof.
  intros Hn Hj. unfold separateClassNames.
  rewrite splitClassNames_join by done.
  intros [_ [_ Ht]%list_elem_of_filter]%list_elem_of_filter.
  destruct (filter _ names) as [|u l] eqn:Hf.
  - apply list_elem_of_singleton in Ht. subst t.
    destruct names as [|u names]; [done|]. rewrite filter_cons in Hf.
    case_decide as Hu; [done|]. subst u. by left.
  - rewrite <-Hf in Ht. by apply list_elem_of_filter in Ht as [_ ?].
Qed.

End resolvers.

(** ** The width *)

Section widths.
Implicit Types (l : list string) (s : string) (w : option float).

Lemma filter_sublist_impl {A} (P Q : A → Prop) `{!∀ x, Decision (P x)}
    `{!∀ x, Decision (Q x)} (l : list A) :
  (∀ x, P x → Q x) → filter P l `sublist_of` filter Q l.
Proof.
  intros HPQ. induction l as [|x l IH]; [done|]. rewrite !filter_cons.
  destruct (decide (P x)) as [HP|HP].
  - rewrite decide_True by auto. by constructor.
  - case_decide; [by constructor|done].
Qed.

(** With more active tiers, the filter of lines 121-124 keeps more. *)
Lemma filterByWindowWidth_mono w w' l :
  activeCount w ≤ activeCount w' →
  filterByWindowWidth w l `sublist_of` filterByWindowWidth w' l.
Proof.
  intros Hle. unfold filterByWindowWidth. apply fmap_sublist.
  apply filter_sublist_impl. intros c [Hc|Hc]; [by left|right].
  apply elem_of_take in Hc as (i & Hi & Hlt). apply elem_of_take.
  exists i. split; [done|lia].
Qed.

End widths.

(** ** Ordinary class names *)

Section ordinary.
Context (rt : Runtime) (tailwindStyles : gmap string Obj).
Implicit Types (st : Store) (s t k name : string) (w : option float)
  (l names : list string).

Lemma startsWith_refl s : startsWith s s = true.
Proof.
  induction s as [|a s IH]; [done|].
  by rewrite startsWith_cons, bool_decide_true.
Qed.

Lemma includes_refl s : includes s s = true.
Proof. apply startsWith_includes, startsWith_refl. Qed.

Lemma includes_cons_ne a s c k :
  a ≠ c → includes (String a s) (String c k) = includes s (String c k).
Proof.
  intros Hne. cbn [includes]. by rewrite startsWith_cons, bool_decide_false.
Qed.

Lemma exec_letterSpacingAt_includes key m :
  exec letterSpacingAt key = Some m → includes key "tracking-" = true.
Proof.
  intros (pre & rest & -> & Hm)%exec_Some. apply includes_append.
  unfold letterSpacingAt in Hm. by destruct (startsWith rest "tracking-").
Qed.

Lemma ordinaryClass_bg name : ordinaryClass name → ordinaryClass ("bg-" +:+ name).
Proof.
  intros [Hns Hk]. split.
  - by rewrite noWhiteSpace_app, Hns.
  - change ("bg-" +:+ name) with (String "b" (String "g" (String "-" name))).
    unfold maxWidthKeys, fontVariantKeywords in *. cbn [app] in *.
    repeat match goal with
           | H : Forall _ (_ :: _) |- _ => apply Forall_cons in H as [? H]
           end.
    repeat constructor; by rewrite !includes_cons_ne.
Qed.

Lemma words_join_tokens names :
  Forall (λ t, t ≠ ""%string ∧ noWhiteSpace t = true) names →
  words (join names) = names.
Proof.
  intros Hn. rewrite words_join.
  - apply filter_all. eapply Forall_impl; [exact Hn|]. by intros ? [? _].
  - eapply Forall_impl; [exact Hn|]. by intros ? [_ ?].
Qed.

Lemma ordinaryClass_includes names k :
  Forall (λ t, t ≠ ""%string ∧ ordinaryClass t) names →
  k ∈ maxWidthKeys ++ fontVariantKeywords ++ ["tracking-"%string] →
  includes (join names) k = false.
Proof.
  intros Hn Hk.
  assert (k ≠ ""%string ∧ noWhiteSpace k = true) as [Hne Hns].
  { unfold maxWidthKeys, fontVariantKeywords in Hk. cbn [app] in Hk.
    rewrite !elem_of_cons, elem_of_nil in Hk.
    by destruct Hk as [->|[->|[->|[->|[->|[->|[->|[->|[->|[]]]]]]]]]]. }
  rewrite includes_words, words_join_tokens by
    (done || (eapply Forall_impl; [exact Hn|]; by intros ? [? [? _]])).
  apply not_true_iff_false. intros (t & Ht & Hi)%existsb_exists.
  rewrite Forall_forall in Hn. apply list_elem_of_In in Ht.
  destruct (Hn t Ht) as [_ [_ Hf]]. rewrite Forall_forall in Hf.
  by rewrite Hf in Hi.
Qed.

(** The merge of a joined list of ordinary class names: the fragments the
    table has for them, assigned in order, and one warning for each of the
    others. *)
Lemma ordinary_mergeStyle names :
  names ≠ [] → Forall (λ t, t ≠ ""%string ∧ ordinaryClass t) names →
  mergeStyle rt tailwindStyles (join names) =
    Return (foldl assign ∅ (omap (λ t, tailwindStyles !! t) names),
            map (λ t, {| unsupported := t; among := join names |})
                (filter (λ t, tailwindStyles !! t = None ∧ inherited t = false)
                        names)).
Proof.
  intros Hne Hn. pose proof (λ k, ordinaryClass_includes names k Hn) as Hk.
  rewrite mergeStyle_no_tracking.
  2:{ destruct (exec letterSpacingAt (join names)) as [m|] eqn:Hm; [|done].
      apply exec_letterSpacingAt_includes in Hm. rewrite Hk in Hm; [done|].
      rewrite !elem_of_app. right. right. by left. }
  assert (addFontVariant ∅ (join names) = ∅) as ->.
  { unfold addFontVariant. rewrite matchAllFontVariant_occurrences.
    destruct (keywordOccurrences_nil (join names)) as [_ ->]; [done|].
    apply Forall_forall. intros k Hin. apply Hk.
    rewrite !elem_of_app. right. by left. }
  assert (separateClassNames (join names) = names) as ->.
  { unfold separateClassNames.
    rewrite splitClassNames_words, words_join_tokens
      by (eapply Forall_impl; [exact Hn|]; by intros ? [? [? _]]).
    destruct names as [|t0 r0] eqn:Hnames; [done|]. rewrite <-Hnames in *.
    rewrite (filter_all (λ className, ¬ startsWith className "tracking-")).
    - apply filter_all. apply Forall_forall. intros t Ht Hin.
      rewrite Forall_forall in Hn. destruct (Hn t Ht) as [_ [_ Hf]].
      rewrite Forall_forall in Hf. specialize (Hf t).
      rewrite includes_refl in Hf. discriminate Hf.
      rewrite !elem_of_app. right. by left.
    - apply Forall_forall. intros t Ht Hs%Is_true_true%startsWith_includes.
      rewrite Forall_forall in Hn. destruct (Hn t Ht) as [_ [_ Hf]].
      rewrite Forall_forall in Hf. rewrite Hf in Hs; [done|].
      rewrite !elem_of_app. right. right. by left. }
  f_equal. apply injective_projections.
  - by rewrite foldl_merge_supported.
  - by rewrite foldl_merge_warnings.
Qed.

Lemma ordinary_haveMaxWidthKeys s :
  Forall ordinaryClass (words s) → haveMaxWidthKeys s = false.
Proof.
  intros Hs. rewrite haveMaxWidthKeys_existsb. apply not_true_iff_false.
  intros (k & Hk & (t & Ht & Hi)%existsb_exists)%existsb_exists.
  rewrite Forall_forall in Hs. apply list_elem_of_In in Ht, Hk.
  destruct (Hs t Ht) as [_ Hf]. rewrite Forall_forall in Hf.
  rewrite Hf in Hi; [done|]. apply elem_of_app. by left.
Qed.

(** The outcome of [tailwind] when the normalised class names are
    ordinary: the member itself when the key is the name of an inherited
    member, and the merged fragments otherwise. *)
Lemma ordinary_names st s w names :
  reachable rt tailwindStyles st →
  normalizedKey s w = Return (join names) →
  Forall (λ t, t ≠ ""%string ∧ ordinaryClass t) names →
  if inherited (join names)
  then tailwind rt tailwindStyles st s w = ReturnInherited (join names)
  else
    ∃ res,
      tailwind rt tailwindStyles st s w = Return res ∧
      deref (store res) (ref res) =
        Some (useVariables rt
                (foldl assign ∅ (omap (λ t, tailwindStyles !! t) names))) ∧
      warnings res =
        match cache st !! join names with
        | Some _ => []
        | None =>
            map (λ t, {| unsupported := t; among := join names |})
                (filter (λ t, tailwindStyles !! t = None ∧ inherited t = false)
                        names)
        end.
Proof.
  intros Hst Hk Hn. pose proof (reachable_inv _ _ _ Hst) as Hinv.
  destruct (decide (names = [])) as [->|Hnames].
  { rewrite tailwind_eq, Hk, lookupOrMerge_empty by done.
    change (inherited (join [])) with false. cbn iota.
    eexists. split; [done|]. cbn.
    destruct Hinv as (-> & -> & _). split; [|done].
    unfold useVariables. by rewrite map_imap_empty. }
  assert (join names ≠ ""%string) as Hj.
  { destruct names as [|t r] eqn:Hnm; [done|].
    apply (join_nonempty _ t); [by left|].
    by apply Forall_cons in Hn as [[? _] _]. }
  destruct (inherited (join names)) eqn:Hi.
  { rewrite tailwind_eq, Hk. apply lookupOrMerge_inherited; [|done].
    destruct (reachable_wf _ _ _ Hst) as (_ & _ & Hm).
    destruct (cache st !! join names) as [r|] eqn:Hr; [|done].
    apply Hm in Hr. congruence. }
  pose proof (ordinary_mergeStyle names Hnames Hn) as Hm.
  destruct (tailwind_Return rt tailwindStyles st s w _ _ _ Hst Hk Hj Hi Hm)
    as (res & Hres & Hd).
  exists res. split_and!; [done..|].
  rewrite tailwind_eq, Hk in Hres. unfold lookupOrMerge in Hres.
  rewrite bool_decide_false in Hres by done.
  destruct (cache st !! join names); [by injection Hres as <-|].
  rewrite Hi, Hm in Hres. by injection Hres as <-.
Qed.

(** Untagged class names that are not [leading-] ones are ordered by
    sorting alone. *)
Lemma sortByMaxWidthKeys_sort l :
  Forall (λ t, tierIndex t = None ∧ isLeading t = false) l →
  sortByMaxWidthKeys l = sort l.
Proof.
  intros Hl. apply (StronglySorted_unique String.le).
  - eapply StronglySorted_impl_elem_of; [|apply sortByMaxWidthKeys_sorted].
    intros a b Ha Hb. rewrite elem_of_sortByMaxWidthKeys in Ha, Hb.
    rewrite Forall_forall in Hl.
    destruct (Hl a Ha) as [Ta La], (Hl b Hb) as [Tb Lb].
    unfold mergeOrder, bucketRank. rewrite Ta, Tb, La, Lb.
    intros [?|[_ [[? ?]|[_ ?]]]]; [lia|done..].
  - apply sort_sorted.
  - by rewrite sortByMaxWidthKeys_perm, sort_perm.
Qed.

Lemma bg_untagged c :
  tierIndex ("bg-" +:+ c) = None ∧ isLeading ("bg-" +:+ c) = false.
Proof. done. Qed.

Lemma split_ne_nil name : split name ≠ [].
Proof.
  destruct name as [|a name]; [done|]. cbn [split].
  case_decide; [done|]. by destruct (split name).
Qed.

End ordinary.

Section ordinary_tagged.
Context (rt : Runtime) (tailwindStyles : gmap string Obj).
Implicit Types (st : Store) (s t k name : string) (w : option float)
  (l names : list string).

(** The normalised class names of an input whose tokens, without their
    breakpoint tags, are ordinary class names. *)
Lemma ordinary_tagged_key s w :
  Forall (λ T, stripTag T ≠ ""%string ∧ ordinaryClass (stripTag T)) (words s) →
  haveMaxWidthKeys s && falsy w = false →
  normalizedKey s w =
    Return (join (map stripTag
                      (filter (keptBy w) (sortByMaxWidthKeys (words s))))) ∧
  Forall (λ t, t ≠ ""%string ∧ ordinaryClass t)
         (map stripTag (filter (keptBy w) (sortByMaxWidthKeys (words s)))).
Proof.
  intros Hs Hw. split.
  - destruct (decide (words s = [])) as [Hnil|Hne].
    { rewrite normalizedKey_blank by done. by rewrite Hnil. }
    unfold normalizedKey. rewrite bool_decide_false by by intros ->.
    destruct (normalizedClassNames s w) as [e|names'|m] eqn:Hn.
    + unfold normalizedClassNames in Hn. by rewrite Hw in Hn.
    + apply normalizedClassNames_keptBy in Hn. rewrite Hn.
      rewrite splitClassNames_words. by destruct (words s).
    + by apply normalizedClassNames_not_inherited in Hn.
  - apply Forall_fmap, Forall_forall. intros T [_ HT]%list_elem_of_filter.
    rewrite elem_of_sortByMaxWidthKeys in HT. rewrite Forall_forall in Hs.
    by apply Hs.
Qed.

End ordinary_tagged.


(** * The claims *)

(** C1: with a width [w], the breakpoint filter of lines 118-131 keeps every
    untagged token, keeps a tagged token exactly when its tier index is
    below the number of tiers whose minimum width is at most [w], strips the
    tag of the survivors and keeps the order of the tokens. So
    ["md:text-lg"] at width 700 loses its only token and resolves to the
    empty style, and at width 800 resolves like ["text-lg"]. *)
Theorem C1_breakpoint_filter :
  (∀ s w,
     normalizedClassNames s (Some w) =
       if haveMaxWidthKeys s && falsy (Some w)
    then Throw (MissingWindowWidth (Some w))
       else Return (map stripTag
                      (filter (survives w)
                              (sortByMaxWidthKeys (splitClassNames s))))) ∧
  activeTierCount 700 = 1 ∧ activeTierCount 800 = 2 ∧
  tierIndex "md:text-lg" = Some 1 ∧
  normalizedClassNames "md:text-lg" (Some 700%float) = Return [] ∧
  normalizedClassNames "md:text-lg" (Some 800%float) = Return ["text-lg"%string] ∧
  (∀ rt tailwindStyles st,
     tailwind rt tailwindStyles st "md:text-lg" (Some 700%float) =
       Return {| ref := cache st !! ""%string; store := st; warnings := [] |}) ∧
  (∀ rt tailwindStyles st,
     tailwind rt tailwindStyles st "md:text-lg" (Some 800%float) =
       tailwind rt tailwindStyles st "text-lg" (Some 800%float)).
Proof.
  split_and!.
  - apply normalizedClassNames_spec.
  - vm_compute; reflexivity.
  - vm_compute; reflexivity.
  - vm_compute; reflexivity.
  - vm_compute; reflexivity.
  - vm_compute; reflexivity.
  - intros rt tailwindStyles st. rewrite tailwind_eq.
    by assert (normalizedKey "md:text-lg" (Some 700%float) = Return ""%string)
      as -> by (vm_compute; reflexivity).
  - intros rt tailwindStyles st. rewrite !tailwind_eq.
    by assert (normalizedKey "md:text-lg" (Some 800%float)
               = normalizedKey "text-lg" (Some 800%float)) as -> by (vm_compute; reflexivity).
Qed.







(** C4 (as amended): the letter-spacing expression matches [tracking-]
    followed by at least one lower-case letter, anywhere in the normalised
    key, and the font-size expression [text-] followed by one of the ten
    sizes. When the first matches and the second does not, the call throws
    the missing-font-size error. When both match, the table holds a string
    [letterSpacing] for the first class and a number [fontSize] for the
    second, and no fragment merged by the loop defines [letterSpacing]
    itself, the result's [letterSpacing] is the parsed float times the font
    size. No class name that starts with [tracking-] enters the merge
    loop. ["tracking-tighter"] alone throws the missing-font-size error. *)
Theorem C4_letter_spacing :
  (∀ key m,
     exec letterSpacingAt key = Some m →
     ∃ letters, m = "tracking-" +:+ letters ∧ letters ≠ ""%string ∧
                allChars isLowerCase letters = true ∧ includes key m = true) ∧
  (∀ pre a post,
     isLowerCase a = true →
     is_Some (exec letterSpacingAt (pre +:+ "tracking-" +:+ String a post))) ∧
  (∀ key m,
     exec fontSizeAt key = Some m →
     ∃ size, size ∈ fontSizeNames ∧ m = "text-" +:+ size ∧
             includes key m = true) ∧
  (∀ pre size post,
     size ∈ fontSizeNames →
     is_Some (exec fontSizeAt (pre +:+ "text-" +:+ size +:+ post))) ∧
  (∀ rt tailwindStyles st s w key,
     reachable rt tailwindStyles st →
     normalizedKey s w = Return key →
     is_Some (exec letterSpacingAt key) → exec fontSizeAt key = None →
     tailwind rt tailwindStyles st s w = Throw MissingFontSize) ∧
  (∀ rt tailwindStyles st s w key letterSpacingClass fontSizeClass lf ff em n,
     reachable rt tailwindStyles st →
     normalizedKey s w = Return key →
     exec letterSpacingAt key = Some letterSpacingClass →
     exec fontSizeAt key = Some fontSizeClass →
     tailwindStyles !! letterSpacingClass = Some lf →
     tailwindStyles !! fontSizeClass = Some ff →
     lf !! "letterSpacing"%string = Some (VStr em) →
     ff !! "fontSize"%string = Some (VNum n) →
     notMerged tailwindStyles key "letterSpacing" →
     ∃ res o,
       tailwind rt tailwindStyles st s w = Return res ∧
       deref (store res) (ref res) = Some o ∧
       o !! "letterSpacing"%string
         = Some (VNum (parseFloatString rt em * n))) ∧
  (∀ key t, t ∈ separateClassNames key → startsWith t "tracking-" = false) ∧
  (∀ rt tailwindStyles st w,
     reachable rt tailwindStyles st →
     tailwind rt tailwindStyles st "tracking-tighter" w = Throw MissingFontSize).
Proof.
  split_and!.
  - intros key m (pre & rest & -> & Hm)%exec_Some.
    apply letterSpacingAt_Some in Hm as (letters & -> & Hne & Hl & Hs).
    exists letters. split_and!; [done..|]. by apply includes_append.
  - apply letterSpacingAt_complete.
  - intros key m (pre & rest & -> & Hm)%exec_Some.
    apply fontSizeAt_Some in Hm as (size & Hin & -> & Hs).
    exists size. split_and!; [done..|]. by apply includes_append.
  - apply fontSizeAt_complete.
  - intros rt tailwindStyles st s w key Hst Hk Hls Hfs.
    apply (tailwind_Throw rt tailwindStyles st s w key); [done..| | |].
    + intros ->. rewrite exec_nil in Hls. by destruct Hls.
    + destruct Hls as [m Hm].
      by apply exec_letterSpacingAt_includes, not_inherited_tracking in Hm.
    + by apply mergeStyle_Throw, addLetterSpacing_MissingFontSize.
  - intros rt tailwindStyles st s w key lsc fsc lf ff em n
      Hst Hk Hls Hfs Hlf Hff Hem Hn Hnot.
    pose proof (addLetterSpacing_spec rt tailwindStyles
                  (addFontVariant ∅ key) key) as Hspec.
    rewrite Hls, Hfs, Hlf, Hff, Hem, Hn in Hspec. cbn in Hspec.
    pose proof (mergeStyle_Return rt tailwindStyles key _ Hspec) as Hm.
    destruct (foldl _ _ _) as [style warns] eqn:Hfold.
    assert (key ≠ ""%string) as Hne.
    { intros ->. by rewrite exec_nil in Hls. }
    assert (inherited key = false) as Hi
      by by apply exec_letterSpacingAt_includes, not_inherited_tracking in Hls.
    destruct (tailwind_Return rt tailwindStyles st s w key style warns)
      as (res & Hres & Hd); [done..|].
    exists res, (useVariables rt style). split_and!; [done..|].
    apply useVariables_plain; [done| |done].
    change style with (style, warns).1. rewrite <-Hfold.
    rewrite foldl_merge_untouched by done. cbn [fst].
    by rewrite lookup_insert_eq.
  - intros key t. unfold separateClassNames. rewrite !list_elem_of_filter.
    intros (_ & Ht & _). by apply Is_true_false in Ht.
  - intros rt tailwindStyles st w Hst.
    apply (tailwind_Throw rt tailwindStyles st _ w "tracking-tighter");
      [done|vm_compute; reflexivity|done|vm_compute; reflexivity|].
    apply mergeStyle_Throw, addLetterSpacing_MissingFontSize.
    split; [by eexists|]; vm_compute; reflexivity.
Qed.

(** C4 as stated fails: ["tracking-2"] is a [tracking-] token without a font
    size, yet the call returns: the expression wants a letter after the
    dash, and the filter of line 154 then drops the token without a
    warning. *)
Lemma C4_tracking_digit_returns :
  splitClassNames "tracking-2" = ["tracking-2"%string] ∧
  startsWith "tracking-2" "tracking-" = true ∧
  exec fontSizeAt "tracking-2" = None ∧
  tailwind sampleRuntime sampleStyles create "tracking-2" None =
    Return {| ref := Some 1;
              store := {| cache := {[ ""%string := 0; "tracking-2"%string := 1 ]};
                          heap := [∅; ∅] |};
              warnings := [] |}.
Proof. split_and!; vm_compute; reflexivity. Qed.

Lemma C4_letter_spacing_witness :
  ∃ res o,
    tailwind sampleRuntime sampleStyles create "text-lg tracking-tighter" None
      = Return res ∧
    deref (store res) (ref res) = Some o ∧
    o !! "letterSpacing"%string
      = Some (VNum (parseFloatString sampleRuntime "-0.05em" * 18)).
Proof.
  set (key := "text-lg tracking-tighter"%string).
  set (lf := ({[ "letterSpacing"%string := VStr "-0.05em" ]} : Obj)).
  set (ff := ({[ "fontSize"%string := VNum 18;
                 "lineHeight"%string := VNum 28 ]} : Obj)).
  assert (normalizedKey key None = Return key) as Hk
    by (vm_compute; reflexivity).
  assert (exec letterSpacingAt key = Some "tracking-tighter"%string) as Hls
    by (vm_compute; reflexivity).
  assert (exec fontSizeAt key = Some "text-lg"%string) as Hfs
    by (vm_compute; reflexivity).
  assert (sampleStyles !! "tracking-tighter"%string = Some lf) as Hlf
    by (vm_compute; reflexivity).
  assert (sampleStyles !! "text-lg"%string = Some ff) as Hff
    by (vm_compute; reflexivity).
  assert (lf !! "letterSpacing"%string = Some (VStr "-0.05em")) as Hem
    by (vm_compute; reflexivity).
  assert (ff !! "fontSize"%string = Some (VNum 18)) as Hn
    by (vm_compute; reflexivity).
  assert (notMerged sampleStyles key "letterSpacing") as Hnot.
  { intros className fragment Hc Hf.
    assert (separateClassNames key = ["text-lg"%string]) as Hsep
      by (vm_compute; reflexivity).
    rewrite Hsep in Hc. apply list_elem_of_singleton in Hc. subst className.
    rewrite Hff in Hf. injection Hf as <-. vm_compute. reflexivity. }
  exact (proj1 (proj2 (proj2 (proj2 (proj2 (proj2 C4_letter_spacing)))))
           sampleRuntime sampleStyles create key None key
           "tracking-tighter"%string "text-lg"%string lf ff
           "-0.05em"%string 18%float (reachable_create _ _)
           Hk Hls Hfs Hlf Hff Hem Hn Hnot).
Defined.

(** C5: in every bucket of the ordered sequence the [leading-] tokens come
    after all other tokens of the bucket, and both groups keep their
    (sorted) relative order. So ["text-lg leading-6"], in either input
    order, is merged as [text-lg] then [leading-6], although [leading-6]
    sorts first, and the line height of the result is the one of the
    [leading-6] fragment, as the variable resolver leaves it. *)
Theorem C5_leading_after_text :
  (∀ l,
     sortByMaxWidthKeys l =
       concat (map (λ i, filter (λ t, isLeading t = false) (sortedBucket i l) ++
                         filter (λ t, isLeading t = true) (sortedBucket i l))
                   buckets)) ∧
  sort ["text-lg"; "leading-6"]%string = ["leading-6"; "text-lg"]%string ∧
  sortByMaxWidthKeys ["text-lg"; "leading-6"]%string
    = ["text-lg"; "leading-6"]%string ∧
  (∀ rt tailwindStyles st s w fragment v,
     reachable rt tailwindStyles st →
     s = "text-lg leading-6"%string ∨ s = "leading-6 text-lg"%string →
     tailwindStyles !! "leading-6"%string = Some fragment →
     fragment !! "lineHeight"%string = Some v →
     ∃ res style warns,
       tailwind rt tailwindStyles st s w = Return res ∧
       mergeStyle rt tailwindStyles "text-lg leading-6" = Return (style, warns) ∧
       style !! "lineHeight"%string = Some v ∧
       deref (store res) (ref res) = Some (useVariables rt style) ∧
       (plainValue v →
        useVariables rt style !! "lineHeight"%string = Some v)).
Proof.
  split_and!; [apply sortByMaxWidthKeys_buckets|vm_compute; reflexivity..|].
  intros rt tailwindStyles st s w fragment v Hst Hs Hf Hv.
  set (key := "text-lg leading-6"%string).
  assert (normalizedKey s w = Return key) as Hkey.
  { by destruct Hs as [-> | ->]; vm_compute. }
  assert (mergeStyle rt tailwindStyles key =
          Return (foldl (mergeClassName tailwindStyles key) (∅, [])
                        (separateClassNames key))) as Hm.
  { apply mergeStyle_no_tracking. vm_compute; reflexivity. }
  assert (separateClassNames key = ["text-lg"%string] ++ "leading-6"%string :: [])
    as Hsep by (vm_compute; reflexivity).
  rewrite Hsep in Hm.
  destruct (foldl _ _ _) as [style warns] eqn:Hfold.
  assert (style !! "lineHeight"%string = Some v) as Hlh.
  { change style with (style, warns).1. rewrite <-Hfold.
    eapply foldl_merge_last; [exact Hf|exact Hv|]. intros t f Ht. inversion Ht. }
  destruct (tailwind_Return rt tailwindStyles st s w key style warns)
    as (res & Hres & Hd); [done..|].
  exists res, style, warns. split_and!; [done..|].
  intros Hplain. by apply useVariables_plain.
Qed.

Lemma C5_leading_after_text_witness :
  ∃ res style warns,
    tailwind sampleRuntime sampleStyles create "leading-6 text-lg" None
      = Return res ∧
    mergeStyle sampleRuntime sampleStyles "text-lg leading-6"
      = Return (style, warns) ∧
    style !! "lineHeight"%string = Some (VNum 24) ∧
    deref (store res) (ref res) = Some (useVariables sampleRuntime style) ∧
    (plainValue (VNum 24) →
     useVariables sampleRuntime style !! "lineHeight"%string = Some (VNum 24)).
Proof.
  assert (sampleStyles !! "leading-6"%string
          = Some {[ "lineHeight"%string := VNum 24 ]}) as Hf
    by (vm_compute; reflexivity).
  assert (({[ "lineHeight"%string := VNum 24 ]} : Obj) !! "lineHeight"%string
          = Some (VNum 24)) as Hv by (vm_compute; reflexivity).
  exact (proj2 (proj2 (proj2 C5_leading_after_text))
           sampleRuntime sampleStyles create "leading-6 text-lg"%string None
           _ _ (reachable_create _ _) (or_intror eq_refl) Hf Hv).
Defined.

(** C6 (as amended): the font-variant matches of the normalised key are all
    the occurrences of the four keywords in it, left to right; tokens equal
    to a keyword are left out of the merge loop; and when no fragment merged
    by the loop defines [fontVariant] itself, the result holds the list of
    matches under [fontVariant] if there is a match and no [fontVariant]
    otherwise. ["oldstyle-nums tabular-nums"] resolves to the two keywords
    in the order of the sorted key, whatever the table holds. *)
Theorem C6_font_variant :
  (∀ rt tailwindStyles st s w key res,
     reachable rt tailwindStyles st →
     normalizedKey s w = Return key →
     tailwind rt tailwindStyles st s w = Return res →
     matchAllFontVariant key = keywordOccurrences key ∧
     (∀ t, t ∈ separateClassNames key → t ∉ fontVariantKeywords) ∧
     ∃ o, deref (store res) (ref res) = Some o ∧
          (notMerged tailwindStyles key "fontVariant" →
           o !! "fontVariant"%string =
             match keywordOccurrences key with
             | [] => None
             | matches => Some (VArr matches)
             end)) ∧
  keywordOccurrences "lining-nums lining-nums"
    = ["lining-nums"; "lining-nums"]%string ∧
  (∀ rt tailwindStyles st s w,
     reachable rt tailwindStyles st →
     s = "oldstyle-nums tabular-nums"%string ∨
     s = "tabular-nums oldstyle-nums"%string →
     ∃ res o,
       tailwind rt tailwindStyles st s w = Return res ∧
       deref (store res) (ref res) = Some o ∧
       o !! "fontVariant"%string
         = Some (VArr ["oldstyle-nums"; "tabular-nums"]%string)).
Proof.
  assert (∀ rt tailwindStyles key style warns,
    mergeStyle rt tailwindStyles key = Return (style, warns) →
    notMerged tailwindStyles key "fontVariant" →
    useVariables rt style !! "fontVariant"%string =
      match keywordOccurrences key with
      | [] => None
      | matches => Some (VArr matches)
      end) as Hfv.
  { intros rt tailwindStyles key style warns Hm Hnot. unfold mergeStyle in Hm.
    destruct (addLetterSpacing _ _ _ _) as [|style0|] eqn:Hls; [done| |done].
    injection Hm as Hm.
    assert (style !! "fontVariant"%string =
            addFontVariant ∅ key !! "fontVariant"%string) as Hs.
    { change style with (style, warns).1. rewrite <-Hm.
      rewrite foldl_merge_untouched by done. cbn [fst].
      by eapply addLetterSpacing_lookup_ne. }
    rewrite addFontVariant_lookup, matchAllFontVariant_occurrences in Hs.
    destruct (keywordOccurrences key) as [|m ms].
    - rewrite lookup_empty in Hs. by rewrite useVariables_lookup, Hs.
    - by apply useVariables_plain. }
  split_and!.
  - intros rt tailwindStyles st s w key res Hst Hk Hres.
    split; [apply matchAllFontVariant_occurrences|]. split.
    { intros t. unfold separateClassNames. rewrite list_elem_of_filter.
      by intros [? _]. }
    destruct (decide (key = ""%string)) as [->|Hne].
    + rewrite tailwind_eq, Hk in Hres.
      pose proof (reachable_inv _ _ _ Hst) as Hinv.
      rewrite lookupOrMerge_empty in Hres by done. injection Hres as <-.
      exists ∅. split; [apply Hinv|done].
    + destruct (tailwind_Return_inv rt tailwindStyles st s w key res)
        as (style & warns & Hm & Hd); [done..|].
      exists (useVariables rt style). split; [done|]. by eapply Hfv.
  - vm_compute; reflexivity.
  - intros rt tailwindStyles st s w Hst Hs.
    set (key := "oldstyle-nums tabular-nums"%string).
    assert (normalizedKey s w = Return key) as Hkey.
    { by destruct Hs as [-> | ->]; vm_compute. }
    assert (mergeStyle rt tailwindStyles key =
            Return (foldl (mergeClassName tailwindStyles key)
                          (addFontVariant ∅ key, []) (separateClassNames key)))
      as Hm.
    { apply mergeStyle_no_tracking. vm_compute; reflexivity. }
    assert (separateClassNames key = []) as Hsep by (vm_compute; reflexivity).
    rewrite Hsep in Hm. cbn [foldl] in Hm.
    destruct (tailwind_Return rt tailwindStyles st s w key
                (addFontVariant ∅ key) [] Hst Hkey)
      as (res & Hres & Hd); [done|vm_compute; reflexivity|exact Hm|].
    exists res, (useVariables rt (addFontVariant ∅ key)).
    split_and!; [done..|].
    rewrite (Hfv rt tailwindStyles key _ _ Hm).
    + vm_compute; reflexivity.
    + intros t f Ht. rewrite Hsep in Ht. inversion Ht.
Qed.

(** C6 as stated fails: a fragment of the merge loop that defines
    [fontVariant] overwrites the list of matches. *)
Lemma C6_fragment_overrides_matches :
  matchAllFontVariant "small-caps tabular-nums" = ["tabular-nums"%string] ∧
  sampleStyles !! "small-caps"%string
    = Some {[ "fontVariant"%string := VArr ["small-caps"%string] ]} ∧
  tailwind sampleRuntime sampleStyles create "small-caps tabular-nums" None =
    Return {| ref := Some 1;
              store := {| cache := {[ ""%string := 0;
                                      "small-caps tabular-nums"%string := 1 ]};
                          heap := [∅; {[ "fontVariant"%string :=
                                           VArr ["small-caps"%string] ]}] |};
              warnings := [] |} ∧
  VArr ["small-caps"%string] ≠ VArr ["tabular-nums"%string].
Proof. split_and!; [vm_compute; reflexivity..|discriminate]. Qed.

Lemma C6_font_variant_witness :
  ∃ res o,
    tailwind sampleRuntime sampleStyles create
             "text-lg tabular-nums lining-nums" None = Return res ∧
    deref (store res) (ref res) = Some o ∧
    o !! "fontVariant"%string
      = Some (VArr ["lining-nums"; "tabular-nums"]%string).
Proof.
  set (key := "lining-nums tabular-nums text-lg"%string).
  assert (normalizedKey "text-lg tabular-nums lining-nums" None = Return key)
    as Hk by (vm_compute; reflexivity).
  assert (notMerged sampleStyles key "fontVariant") as Hnot.
  { intros className fragment Hc Hf.
    assert (separateClassNames key = ["text-lg"%string]) as Hsep
      by (vm_compute; reflexivity).
    rewrite Hsep in Hc. apply list_elem_of_singleton in Hc. subst className.
    assert (sampleStyles !! "text-lg"%string
            = Some {[ "fontSize"%string := VNum 18;
                      "lineHeight"%string := VNum 28 ]}) as Hff
      by (vm_compute; reflexivity).
    rewrite Hff in Hf. injection Hf as <-. vm_compute. reflexivity. }
  destruct (tailwind sampleRuntime sampleStyles create
                     "text-lg tabular-nums lining-nums" None)
    as [e|res|m] eqn:Hres;
    [vm_compute in Hres; discriminate| |vm_compute in Hres; discriminate].
  destruct (proj1 C6_font_variant sampleRuntime sampleStyles create
              "text-lg tabular-nums lining-nums"%string None key res
              (reachable_create _ _) Hk Hres)
    as (_ & _ & o & Hd & Hfv).
  exists res, o. split; [reflexivity|]. split; [exact Hd|].
  rewrite (Hfv Hnot). vm_compute. reflexivity.
Defined.

(** C7: [useVariables] drops every property whose name starts with ["--"];
    in a string value it replaces the leftmost placeholder [var(name)] by the
    value that [object[name]] reads from the object under resolution (its
    own property [name], or else the member of that name that it inherits,
    or else [undefined]), once and without looking at the replacement
    again; every other value is copied as it is. The style that [tailwind]
    returns for a non-empty key is the merged style after this pass. *)
Theorem C7_variable_resolution rt :
  (∀ (o : Obj) k, startsWith k "--" = true → useVariables rt o !! k = None) ∧
  (∀ (o : Obj) k, o !! k = None → useVariables rt o !! k = None) ∧
  (∀ (o : Obj) k v,
     startsWith k "--" = false → o !! k = Some v → plainValue v →
     useVariables rt o !! k = Some v) ∧
  (∀ (o : Obj) k s,
     startsWith k "--" = false → o !! k = Some (VStr s) →
     containsPlaceholder s →
     ∃ pre name post,
       s = pre +:+ placeholder name +:+ post ∧
       validName name ∧ ¬ containsPlaceholder pre ∧
       useVariables rt o !! k =
         Some (VStr (pre +:+ toString rt (getProperty o name) +:+ post))) ∧
  useVariables rt {[ "--tw-color"%string := VStr "#fff";
                     "color"%string := VStr "var(--tw-color)" ]}
    = {[ "color"%string := VStr "#fff" ]} ∧
  (∀ tailwindStyles st s w key res,
     reachable rt tailwindStyles st →
     normalizedKey s w = Return key → key ≠ ""%string →
     tailwind rt tailwindStyles st s w = Return res →
     ∃ style warns,
       mergeStyle rt tailwindStyles key = Return (style, warns) ∧
       deref (store res) (ref res) = Some (useVariables rt style)).
Proof.
  split_and!.
  - intros o k Hk. rewrite useVariables_lookup.
    destruct (o !! k) as [v|]; [|done]. cbn. unfold useVariablesEntry.
    by rewrite Hk.
  - intros o k Hk. by rewrite useVariables_lookup, Hk.
  - intros o k v. apply useVariables_plain.
  - intros o k s Hk Hs Hc. rewrite useVariables_lookup, Hs. cbn.
    unfold useVariablesEntry. rewrite Hk, replaceVar_firstPlaceholder.
    destruct (firstPlaceholder s) as [[[pre name] post]|] eqn:Hf.
    + exists pre, name, post.
      destruct (firstPlaceholder_Some _ _ _ _ Hf) as [-> Hn].
      split_and!; [done..| |done]. by eapply firstPlaceholder_before.
    + by apply firstPlaceholder_None in Hf.
  - vm_compute; reflexivity.
  - intros tailwindStyles st s w key res. apply tailwind_Return_inv.
Qed.

Lemma C7_variable_resolution_witness :
  ∃ pre name post,
    "rgba(255, 255, 255, var(--text-opacity))"%string
      = pre +:+ placeholder name +:+ post ∧
    validName name ∧ ¬ containsPlaceholder pre ∧
    useVariables sampleRuntime
        {[ "--text-opacity"%string := VNum 1;
           "color"%string := VStr "rgba(255, 255, 255, var(--text-opacity))" ]}
      !! "color"%string
      = Some (VStr (pre +:+
                    toString sampleRuntime
                      (getProperty
                         ({[ "--text-opacity"%string := VNum 1;
                             "color"%string :=
                               VStr "rgba(255, 255, 255, var(--text-opacity))" ]}
                          : Obj) name) +:+
                    post)).
Proof.
  assert (containsPlaceholder "rgba(255, 255, 255, var(--text-opacity))") as Hc.
  { exists "rgba(255, 255, 255, "%string, "--text-opacity"%string, ")"%string.
    split; [split; [discriminate|reflexivity]|reflexivity]. }
  assert (({[ "--text-opacity"%string := VNum 1;
              "color"%string := VStr "rgba(255, 255, 255, var(--text-opacity))" ]}
           : Obj) !! "color"%string
          = Some (VStr "rgba(255, 255, 255, var(--text-opacity))")) as Ho
    by (vm_compute; reflexivity).
  exact (proj1 (proj2 (proj2 (proj2 (C7_variable_resolution sampleRuntime))))
           _ "color"%string _ eq_refl Ho Hc).
Defined.

(** C8: a second call with the same arguments returns the reference of the
    first call from the cache; it leaves the store as it is and emits no
    warning. Nothing is computed again: the outcome of the second call is
    the same whatever table and runtime it is given, so neither the
    cross-class resolvers, nor the merge loop, nor the variable resolver
    take part in it. *)
Theorem C8_second_call_cached rt tailwindStyles st s w res :
  tailwind rt tailwindStyles st s w = Return res →
  ∀ rt' tailwindStyles',
    tailwind rt' tailwindStyles' (store res) s w =
      Return {| ref := ref res; store := store res; warnings := [] |}.
Proof.
  intros Hres rt' tailwindStyles'. rewrite tailwind_eq in Hres.
  rewrite tailwind_eq. destruct (normalizedKey s w) as [|key|]; [done| |done].
  by eapply lookupOrMerge_again.
Qed.

Lemma C8_second_call_cached_witness :
  tailwind sampleRuntime sampleStyles create "not-a-real-class" None =
    Return {| ref := Some 1;
              store := {| cache := {[ ""%string := 0;
                                      "not-a-real-class"%string := 1 ]};
                          heap := [∅; ∅] |};
              warnings := [{| unsupported := "not-a-real-class";
                              among := "not-a-real-class" |}] |} ∧
  tailwind sampleRuntime sampleStyles
           {| cache := {[ ""%string := 0; "not-a-real-class"%string := 1 ]};
              heap := [∅; ∅] |}
           "not-a-real-class" None =
    Return {| ref := Some 1;
              store := {| cache := {[ ""%string := 0;
                                      "not-a-real-class"%string := 1 ]};
                          heap := [∅; ∅] |};
              warnings := [] |}.
Proof.
  assert (tailwind sampleRuntime sampleStyles create "not-a-real-class" None =
    Return {| ref := Some 1;
              store := {| cache := {[ ""%string := 0;
                                      "not-a-real-class"%string := 1 ]};
                          heap := [∅; ∅] |};
              warnings := [{| unsupported := "not-a-real-class";
                              among := "not-a-real-class" |}] |}) as H
    by (vm_compute; reflexivity).
  split; [exact H|].
  exact (C8_second_call_cached _ _ _ _ _ _ H sampleRuntime sampleStyles).
Defined.

(** C9: for an empty or white-space-only string, [tailwind] returns the
    empty style object that [create] stored under the empty key, without
    touching the store and without warnings. *)
Theorem C9_blank_input rt tailwindStyles st s w :
  reachable rt tailwindStyles st → allWhiteSpace s = true →
  tailwind rt tailwindStyles st s w =
    Return {| ref := cache create !! ""%string; store := st; warnings := [] |} ∧
  deref st (cache create !! ""%string) = Some ∅.
Proof.
  intros Hst%reachable_inv Hs. rewrite tailwind_eq.
  rewrite normalizedKey_blank by by apply words_allWhiteSpace.
  rewrite lookupOrMerge_empty by done. split; [done|]. apply Hst.
Qed.

Lemma C9_blank_input_witness :
  allWhiteSpace "   " = true ∧
  tailwind sampleRuntime sampleStyles create "   " None =
    Return {| ref := cache create !! ""%string; store := create; warnings := [] |} ∧
  deref create (cache create !! ""%string) = Some ∅.
Proof.
  split; [reflexivity|].
  apply (C9_blank_input sampleRuntime sampleStyles create "   " None);
    [apply reachable_create|reflexivity].
Defined.

(** C10: two inputs with the same multiset of tokens, whatever their order
    and the white space between them, have the same normalised key; when
    the call on the first one returns, the call on the second one returns
    the very same reference from the cache. *)
Theorem C10_same_tokens_same_object rt tailwindStyles st s1 s2 w res :
  words s1 ≡ₚ words s2 →
  tailwind rt tailwindStyles st s1 w = Return res →
  normalizedKey s1 w = normalizedKey s2 w ∧
  tailwind rt tailwindStyles (store res) s2 w =
    Return {| ref := ref res; store := store res; warnings := [] |}.
Proof.
  intros Hp Hres. rewrite tailwind_eq in Hres. rewrite tailwind_eq.
  rewrite <-(normalizedKey_Permutation s1 s2 w Hp). split; [done|].
  destruct (normalizedKey s1 w) as [|key|]; [done| |done].
  by eapply lookupOrMerge_again.
Qed.

Lemma C10_same_tokens_same_object_witness :
  words "text-lg   bg-red-500" ≡ₚ words " bg-red-500 text-lg " ∧
  normalizedKey "text-lg   bg-red-500" None
    = normalizedKey " bg-red-500 text-lg " None ∧
  ∃ res,
    tailwind sampleRuntime sampleStyles create "text-lg   bg-red-500" None
      = Return res ∧
    tailwind sampleRuntime sampleStyles (store res) " bg-red-500 text-lg " None
      = Return {| ref := ref res; store := store res; warnings := [] |}.
Proof.
  assert (words "text-lg   bg-red-500" ≡ₚ words " bg-red-500 text-lg ") as Hp.
  { vm_compute. apply perm_swap. }
  destruct (tailwind sampleRuntime sampleStyles create "text-lg   bg-red-500" None)
    as [e|res|m] eqn:Hres;
    [vm_compute in Hres; discriminate| |vm_compute in Hres; discriminate].
  destruct (C10_same_tokens_same_object _ _ _ _ _ _ _ Hp Hres) as [Hk Hagain].
  split; [exact Hp|]. split; [exact Hk|]. exists res. split; [reflexivity|exact Hagain].
Defined.

(** * Further properties *)

(** X1: line 101 yields the tokens of the input, its maximal runs of code
    units that are not white space, in order, and [['']] when there is
    none. No class name it yields contains white space; the empty class
    name only appears for a blank input; and splitting the names of a
    non-empty list of non-empty, space-free names joined by single spaces
    gives the list back. *)
Theorem X1_tokens :
  (∀ s, splitClassNames s = match words s with [] => [""%string] | l => l end) ∧
  (∀ s, Forall (λ t, noWhiteSpace t = true) (splitClassNames s)) ∧
  (∀ s, ""%string ∈ splitClassNames s →
        allWhiteSpace s = true ∧ splitClassNames s = [""%string]) ∧
  (∀ s, allWhiteSpace s = true → splitClassNames s = [""%string]) ∧
  (∀ l, l ≠ [] → Forall (λ t, t ≠ ""%string ∧ noWhiteSpace t = true) l →
        splitClassNames (join l) = l).
Proof.
  split_and!.
  - apply splitClassNames_words.
  - apply splitClassNames_noWhiteSpace.
  - intros s. rewrite splitClassNames_words.
    pose proof (words_Forall s) as Hw.
    destruct (words s) as [|t r] eqn:Hs.
    + intros _. split; [by apply words_nil_allWhiteSpace|done].
    + intros Hin. rewrite Forall_forall in Hw. by destruct (Hw _ Hin).
  - intros s Hs. by rewrite splitClassNames_words, words_allWhiteSpace.
  - intros l Hne Hl. rewrite splitClassNames_join.
    + rewrite filter_all; [by destruct l|].
      eapply Forall_impl; [exact Hl|]. by intros ? [? _].
    + eapply Forall_impl; [exact Hl|]. by intros ? [_ ?].
Qed.

(** X2: the ordering of lines 105-116 is a canonical form of the multiset
    of the class names: two lists are ordered to the same sequence exactly
    when one is a permutation of the other, and ordering an ordered list
    changes nothing. *)
Theorem X2_order_canonical :
  (∀ l1 l2, sortByMaxWidthKeys l1 = sortByMaxWidthKeys l2 ↔ l1 ≡ₚ l2) ∧
  (∀ l, sortByMaxWidthKeys (sortByMaxWidthKeys l) = sortByMaxWidthKeys l).
Proof.
  split.
  - intros l1 l2. split; [|apply sortByMaxWidthKeys_Permutation].
    intros Heq. by rewrite <-(sortByMaxWidthKeys_perm l1), Heq,
                           sortByMaxWidthKeys_perm.
  - intros l. apply sortByMaxWidthKeys_Permutation, sortByMaxWidthKeys_perm.
Qed.

(** X3: for two inputs in which no breakpoint tag occurs, the normalised
    strings under which the results are cached are equal exactly when the
    inputs have the same tokens up to their order (with the same
    multiplicities). *)
Theorem X3_key_by_tokens s1 s2 w :
  haveMaxWidthKeys s1 = false → haveMaxWidthKeys s2 = false →
  normalizedKey s1 w = normalizedKey s2 w ↔ words s1 ≡ₚ words s2.
Proof.
  intros H1 H2. split; [|apply normalizedKey_Permutation].
  rewrite !normalizedKey_untagged by done. intros [= Hj].
  apply join_inj in Hj; try (apply sortByMaxWidthKeys_Forall, words_Forall).
  by rewrite <-(sortByMaxWidthKeys_perm (words s1)), Hj, sortByMaxWidthKeys_perm.
Qed.

Lemma X3_key_by_tokens_witness :
  normalizedKey "text-lg  bg-red-500" None
    = normalizedKey "bg-red-500 text-lg" None ↔
  words "text-lg  bg-red-500" ≡ₚ words "bg-red-500 text-lg".
Proof.
  apply (X3_key_by_tokens "text-lg  bg-red-500" "bg-red-500 text-lg" None);
    vm_compute; reflexivity.
Defined.

(** X4: a truthy width only matters through the number of breakpoints it
    reaches, and the width does not matter at all when no breakpoint tag
    occurs in the input: two such calls in the same store have the same
    outcome. (With a tag in the input, two falsy widths give errors whose
    messages quote different widths.) *)
Theorem X4_width_by_tier rt tailwindStyles st s w w' :
  haveMaxWidthKeys s = false ∨
  (falsy w = false ∧ falsy w' = false ∧ activeCount w = activeCount w') →
  tailwind rt tailwindStyles st s w = tailwind rt tailwindStyles st s w'.
Proof.
  intros H. rewrite !tailwind_eq.
  assert (normalizedKey s w = normalizedKey s w') as ->; [|done].
  destruct H as [Hh|(Hf & Hf' & Ha)].
  - by rewrite !normalizedKey_untagged.
  - unfold normalizedKey, normalizedClassNames, filterByWindowWidth.
    by rewrite Hf, Hf', Ha, !andb_false_r.
Qed.

Lemma X4_width_by_tier_witness :
  tailwind sampleRuntime sampleStyles create "md:bg-red-500 bg-blue-500"
           (Some 800%float) =
  tailwind sampleRuntime sampleStyles create "md:bg-red-500 bg-blue-500"
           (Some 1023%float).
Proof.
  apply X4_width_by_tier. right. split_and!; vm_compute; reflexivity.
Defined.

(** X5: a width that reaches at least as many breakpoints keeps at least
    the class names of the narrower width, in the same relative order. *)
Theorem X5_width_monotone s w w' names names' :
  activeCount w ≤ activeCount w' →
  normalizedClassNames s w = Return names →
  normalizedClassNames s w' = Return names' →
  names `sublist_of` names'.
Proof.
  intros Hle. unfold normalizedClassNames.
  destruct (haveMaxWidthKeys s && falsy w); [done|].
  destruct (haveMaxWidthKeys s && falsy w'); [done|].
  intros [= <-] [= <-]. destruct (haveMaxWidthKeys s); [|done].
  by apply filterByWindowWidth_mono.
Qed.

Lemma X5_width_monotone_witness :
  ["bg-blue-500"; "text-lg"]%string `sublist_of`
  ["bg-blue-500"; "text-lg"; "bg-red-500"]%string.
Proof.
  apply (X5_width_monotone "md:bg-red-500 sm:text-lg bg-blue-500"
           (Some 700%float) (Some 800%float)).
  - vm_compute. lia.
  - vm_compute. reflexivity.
  - vm_compute. reflexivity.
Defined.

(** X6: an input whose tokens, without their breakpoint tags, are all
    ordinary class names, called with a width when a tag occurs in it,
    resolves to the fragments that the table has for the tokens kept for
    the width, assigned to the empty style in the order of the ordering
    engine and passed through the variable resolver; on a cache miss there
    is one warning for each kept token that the table does not have and
    that is not the name of an inherited member, and on a hit there is
    none. Only when the normalised string is itself the name of an
    inherited member does the call return that member instead. *)
Theorem X6_ordinary_classes rt tailwindStyles st s w :
  reachable rt tailwindStyles st →
  Forall (λ T, stripTag T ≠ ""%string ∧ ordinaryClass (stripTag T)) (words s) →
  haveMaxWidthKeys s && falsy w = false →
  if inherited (join (map stripTag
                          (filter (keptBy w) (sortByMaxWidthKeys (words s)))))
  then
    tailwind rt tailwindStyles st s w =
      ReturnInherited
        (join (map stripTag (filter (keptBy w) (sortByMaxWidthKeys (words s)))))
  else
    ∃ res,
      tailwind rt tailwindStyles st s w = Return res ∧
      deref (store res) (ref res) =
        Some (useVariables rt
                (foldl assign ∅
                   (omap (λ t, tailwindStyles !! t)
                         (map stripTag
                              (filter (keptBy w)
                                      (sortByMaxWidthKeys (words s))))))) ∧
      warnings res =
        match cache st !! join (map stripTag
                                  (filter (keptBy w)
                                          (sortByMaxWidthKeys (words s)))) with
        | Some _ => []
        | None =>
            map (λ t, {| unsupported := t;
                         among := join (map stripTag
                                          (filter (keptBy w)
                                             (sortByMaxWidthKeys (words s)))) |})
                (filter (λ t, tailwindStyles !! t = None ∧ inherited t = false)
                        (map stripTag
                             (filter (keptBy w)
                                     (sortByMaxWidthKeys (words s)))))
        end.
Proof.
  intros Hst Hs Hw. destruct (ordinary_tagged_key s w Hs Hw) as [Hk Hn].
  exact (ordinary_names rt tailwindStyles st s w _ Hst Hk Hn).
Qed.

Lemma X6_ordinary_classes_witness :
  ∃ res,
    tailwind sampleRuntime sampleStyles create
             "md:bg-red-500  toString bg-blue-500 nope" (Some 800%float)
      = Return res ∧
    deref (store res) (ref res) =
      Some (useVariables sampleRuntime
              (foldl assign ∅
                 (omap (λ t, sampleStyles !! t)
                       ["bg-blue-500"; "nope"; "toString"; "bg-red-500"]%string))) ∧
    warnings res =
      [{| unsupported := "nope";
          among := "bg-blue-500 nope toString bg-red-500" |}].
Proof.
  assert (words "md:bg-red-500  toString bg-blue-500 nope"
          = ["md:bg-red-500"; "toString"; "bg-blue-500"; "nope"]%string) as Hw
    by (vm_compute; reflexivity).
  assert (Forall (λ T, stripTag T ≠ ""%string ∧ ordinaryClass (stripTag T))
                 (words "md:bg-red-500  toString bg-blue-500 nope")) as Hc.
  { rewrite Hw.
    repeat constructor; try discriminate; apply (bool_decide_eq_true _);
      vm_compute; reflexivity. }
  pose proof (X6_ordinary_classes sampleRuntime sampleStyles create
                "md:bg-red-500  toString bg-blue-500 nope" (Some 800%float)
                (reachable_create _ _) Hc eq_refl) as H.
  assert (map stripTag
            (filter (keptBy (Some 800%float))
               (sortByMaxWidthKeys
                  (words "md:bg-red-500  toString bg-blue-500 nope")))
          = ["bg-blue-500"; "nope"; "toString"; "bg-red-500"]%string) as Hn
    by (vm_compute; reflexivity).
  rewrite Hn in H. exact H.
Defined.

(** X7: every own property of a style that a call returns has a name that
    does not start with ["--"], and is [fontVariant], [letterSpacing], or a
    property of the fragment that the table holds for one of the input's
    tokens kept for the width, without its tag. (A call whose normalised
    string names an inherited member returns that member and no style.) *)
Theorem X7_property_origin rt tailwindStyles st s w res o p v :
  reachable rt tailwindStyles st →
  tailwind rt tailwindStyles st s w = Return res →
  deref (store res) (ref res) = Some o → o !! p = Some v →
  startsWith p "--" = false ∧
  (p = "fontVariant"%string ∨ p = "letterSpacing"%string ∨
   ∃ T fragment,
     T ∈ words s ∧ keptBy w T ∧
     tailwindStyles !! stripTag T = Some fragment ∧ is_Some (fragment !! p)).
Proof.
  intros Hst Hres Hd Hp.
  destruct (normalizedKey s w) as [e|key|m] eqn:Hk.
  { by rewrite tailwind_eq, Hk in Hres. }
  2:{ by rewrite tailwind_eq, Hk in Hres. }
  destruct (decide (key = ""%string)) as [->|Hne].
  { rewrite tailwind_eq, Hk, lookupOrMerge_empty in Hres
      by by apply reachable_inv.
    injection Hres as <-. cbn in Hd.
    destruct (reachable_inv _ _ _ Hst) as (_ & He & _).
    rewrite He in Hd. injection Hd as <-. by rewrite lookup_empty in Hp. }
  destruct (tailwind_Return_inv rt tailwindStyles st s w key res)
    as (style & warns & Hm & Hd'); [done..|].
  rewrite Hd' in Hd. injection Hd as <-.
  rewrite useVariables_lookup in Hp.
  destruct (style !! p) as [v0|] eqn:Hv0; [|done]. cbn in Hp.
  unfold useVariablesEntry in Hp.
  destruct (startsWith p "--") eqn:Hpp; [done|]. split; [done|].
  destruct (decide (p = "fontVariant"%string)) as [|Hfv]; [by left|].
  destruct (decide (p = "letterSpacing"%string)) as [|Hls]; [by right; left|].
  right. right. unfold mergeStyle in Hm.
  destruct (addLetterSpacing _ _ _ _) as [|style0|] eqn:Hs0; [done| |done].
  injection Hm as Hm.
  assert (style !! p = (style, warns).1 !! p) as Hsp by done.
  rewrite <-Hm, Hv0 in Hsp. symmetry in Hsp.
  apply foldl_merge_origin in Hsp as [Hacc|(t & f & Ht & Hf & Hfp)].
  { cbn in Hacc.
    rewrite (addLetterSpacing_lookup_ne _ _ _ _ _ _ Hls Hs0) in Hacc.
    by rewrite addFontVariant_lookup_ne, lookup_empty in Hacc. }
  unfold normalizedKey in Hk. case_bool_decide as Hsne; [congruence|].
  destruct (normalizedClassNames s w) as [|names|] eqn:Hnames; [done| |done].
  injection Hk as <-.
  apply elem_of_separateClassNames_join in Ht;
    [|by eapply normalizedClassNames_noWhiteSpace|done].
  rewrite (normalizedClassNames_keptBy _ _ _ Hnames) in Ht.
  apply list_elem_of_fmap in Ht as (T & -> & HT).
  apply list_elem_of_filter in HT as [Hkept HT].
  rewrite elem_of_sortByMaxWidthKeys, splitClassNames_words in HT.
  exists T, f. split_and!; [|done..|by rewrite Hfp].
  destruct (words s) as [|u l] eqn:Hw; [|done].
  rewrite (normalizedClassNames_keptBy _ _ _ Hnames), splitClassNames_words, Hw
    in Hne.
  apply list_elem_of_singleton in HT. subst T.
  exfalso. apply Hne. by destruct w; vm_compute.
Qed.

Lemma X7_property_origin_witness :
  startsWith "backgroundColor" "--" = false ∧
  ("backgroundColor"%string = "fontVariant"%string ∨
   "backgroundColor"%string = "letterSpacing"%string ∨
   ∃ T fragment,
     T ∈ words "bg-red-500" ∧ keptBy None T ∧
     sampleStyles !! stripTag T = Some fragment ∧
     is_Some (fragment !! "backgroundColor"%string)).
Proof.
  assert (tailwind sampleRuntime sampleStyles create "bg-red-500" None =
    Return {| ref := Some 1;
              store := {| cache := {[ ""%string := 0; "bg-red-500"%string := 1 ]};
                          heap := [∅; {[ "backgroundColor"%string :=
                                           VStr "#f56565" ]}] |};
              warnings := [] |}) as Hres by (vm_compute; reflexivity).
  assert (({[ "backgroundColor"%string := VStr "#f56565" ]} : Obj)
            !! "backgroundColor"%string = Some (VStr "#f56565")) as Hv
    by (vm_compute; reflexivity).
  exact (X7_property_origin sampleRuntime sampleStyles create "bg-red-500" None
           _ _ "backgroundColor" _ (reachable_create _ _) Hres eq_refl Hv).
Defined.

(** X8: [addFontVariant] looks for the four keywords anywhere in the
    string, not only at token boundaries: when none occurs as a substring
    the style is left as it is, and otherwise [fontVariant] is set to a
    non-empty list of keywords. *)
Theorem X8_font_variant_substring style key :
  ((∀ k, k ∈ fontVariantKeywords → includes key k = false) ∧
   addFontVariant style key = style) ∨
  ((∃ k, k ∈ fontVariantKeywords ∧ includes key k = true) ∧
   ∃ m ms, Forall (λ k, k ∈ fontVariantKeywords) (m :: ms) ∧
           addFontVariant style key
             = <["fontVariant"%string := VArr (m :: ms)]> style).
Proof.
  unfold addFontVariant. rewrite matchAllFontVariant_occurrences.
  pose proof (keywordOccurrences_nil key) as Hnil.
  pose proof (keywordOccurrences_Forall key) as Hall.
  destruct (keywordOccurrences key) as [|m ms].
  - left. split; [|done]. apply Forall_forall, Hnil. done.
  - right. split.
    + destruct (decide (Forall (λ k, includes key k = false)
                                fontVariantKeywords)) as [Hno|Hsome].
      { by apply Hnil in Hno. }
      apply not_Forall_Exists, Exists_exists in Hsome as (k & Hk & Hi); [|apply _].
      exists k. split; [done|]. by apply not_false_iff_true.
    + exists m, ms. split; [done|]. by rewrite bool_decide_true by (cbn; lia).
Qed.

(** X9: in a reachable store, a [TypeError] escapes [tailwind] exactly when
    both expressions of [addLetterSpacing] match in the normalised string
    and the table lacks the matched letter-spacing class or the matched
    font-size class (lines 57 and 59 destructure [undefined]). *)
Theorem X9_type_error rt tailwindStyles st s w :
  reachable rt tailwindStyles st →
  tailwind rt tailwindStyles st s w = Throw TypeError ↔
  ∃ key letterSpacingClass fontSizeClass,
    normalizedKey s w = Return key ∧
    exec letterSpacingAt key = Some letterSpacingClass ∧
    exec fontSizeAt key = Some fontSizeClass ∧
    (tailwindStyles !! letterSpacingClass = None ∨
     tailwindStyles !! fontSizeClass = None).
Proof.
  intros Hst. rewrite tailwind_eq.
  destruct (normalizedKey s w) as [e|key|m] eqn:Hk.
  { apply normalizedKey_Throw in Hk as (-> & _). split; [done|].
    by intros (? & ? & ? & ? & _). }
  2:{ by apply normalizedKey_not_inherited in Hk. }
  pose proof (addLetterSpacing_spec rt tailwindStyles
                (addFontVariant ∅ key) key) as Hspec.
  split.
  - intros (_ & _ & Hm%mergeStyle_Throw_inv)%lookupOrMerge_Throw_inv.
    destruct (exec letterSpacingAt key) as [lsc|] eqn:Hls; [|congruence].
    destruct (exec fontSizeAt key) as [fsc|] eqn:Hfs; [|congruence].
    exists key, lsc, fsc. split_and!; [done..|].
    destruct (tailwindStyles !! lsc); [|by left].
    destruct (tailwindStyles !! fsc); [congruence|by right].
  - intros (key' & lsc & fsc & [= <-] & Hls & Hfs & Hnone).
    rewrite Hls, Hfs in Hspec.
    apply lookupOrMerge_Throw; [by apply reachable_inv| | |].
    + intros ->. by rewrite exec_nil in Hls.
    + by apply exec_letterSpacingAt_includes, not_inherited_tracking in Hls.
    + apply mergeStyle_Throw.
      destruct Hnone as [Hn|Hn]; rewrite Hn in Hspec; [done|].
      by destruct (tailwindStyles !! lsc).
Qed.

Lemma X9_type_error_witness :
  tailwind sampleRuntime sampleStyles create "text-lg tracking-foo" None
    = Throw TypeError.
Proof.
  apply (X9_type_error sampleRuntime sampleStyles create "text-lg tracking-foo"
           None (reachable_create _ _)).
  exists "text-lg tracking-foo"%string, "tracking-foo"%string, "text-lg"%string.
  split_and!; [vm_compute; reflexivity..|]. left. vm_compute. reflexivity.
Defined.

(** X10: when the fragment of the matched font-size class has no
    [fontSize], [addLetterSpacing] does not fail: it sets [letterSpacing]
    to NaN. *)
Theorem X10_letter_spacing_nan rt tailwindStyles style key
    letterSpacingClass fontSizeClass lf ff :
  exec letterSpacingAt key = Some letterSpacingClass →
  exec fontSizeAt key = Some fontSizeClass →
  tailwindStyles !! letterSpacingClass = Some lf →
  tailwindStyles !! fontSizeClass = Some ff →
  ff !! "fontSize"%string = None →
  addLetterSpacing rt tailwindStyles style key =
    Return (<["letterSpacing"%string := VNum nan]> style).
Proof.
  intros Hls Hfs Hlf Hff Hn.
  pose proof (addLetterSpacing_spec rt tailwindStyles style key) as Hspec.
  rewrite Hls, Hfs, Hlf, Hff, Hn in Hspec. cbn [toNumber] in Hspec.
  by rewrite mul_nan in Hspec.
Qed.

Lemma X10_letter_spacing_nan_witness :
  addLetterSpacing sampleRuntime
    {[ "tracking-tighter"%string := {[ "letterSpacing"%string := VStr "-0.05em" ]};
       "text-lg"%string := ∅ ]}
    ∅ "text-lg tracking-tighter" =
  Return (<["letterSpacing"%string := VNum nan]> ∅).
Proof.
  apply (X10_letter_spacing_nan sampleRuntime _ ∅ "text-lg tracking-tighter"
           "tracking-tighter" "text-lg"
           {[ "letterSpacing"%string := VStr "-0.05em" ]} ∅);
    vm_compute; reflexivity.
Defined.

(** X11: in a reachable store, a call of [tailwind] that returns yields
    an object, never [undefined], and this object has no property whose name
    starts with ["--"]. *)
Theorem X11_returns_object rt tailwindStyles st s w res :
  reachable rt tailwindStyles st →
  tailwind rt tailwindStyles st s w = Return res →
  ∃ r o, ref res = Some r ∧ heap (store res) !! r = Some o ∧
         ∀ k, startsWith k "--" = true → o !! k = None.
Proof.
  intros Hst%reachable_inv Hres. rewrite tailwind_eq in Hres.
  destruct (normalizedKey s w) as [|key|]; [done| |done].
  by eapply lookupOrMerge_object.
Qed.

Lemma X11_returns_object_witness :
  ∃ r (o : Obj),
    Some 1 = Some r ∧
    [∅; {[ "backgroundColor"%string := VStr "#f56565" ]}] !! r = Some o ∧
    ∀ k, startsWith k "--" = true → o !! k = None.
Proof.
  assert (tailwind sampleRuntime sampleStyles create "bg-red-500" None =
    Return {| ref := Some 1;
              store := {| cache := {[ ""%string := 0; "bg-red-500"%string := 1 ]};
                          heap := [∅; {[ "backgroundColor"%string :=
                                           VStr "#f56565" ]}] |};
              warnings := [] |}) as Hres by (vm_compute; reflexivity).
  exact (X11_returns_object _ _ _ _ _ _ (reachable_create _ _) Hres).
Defined.

(** X12: the cache is transparent. In a reachable store a call throws the
    same error as on a fresh instance of [create], or returns an object with
    the same content as the one a fresh instance returns, or returns the
    same inherited member. *)
Theorem X12_history_independent rt tailwindStyles st s w :
  reachable rt tailwindStyles st →
  match tailwind rt tailwindStyles st s w,
        tailwind rt tailwindStyles create s w with
  | Throw e, Throw e0 => e = e0
  | Return res, Return res0 =>
      is_Some (deref (store res) (ref res)) ∧
      deref (store res) (ref res) = deref (store res0) (ref res0)
  | ReturnInherited member, ReturnInherited member0 => member = member0
  | _, _ => False
  end.
Proof.
  intros Hreach. pose proof (reachable_inv _ _ _ Hreach) as Hst.
  pose proof (create_inv rt tailwindStyles) as Hc.
  rewrite !tailwind_eq. destruct (normalizedKey s w) as [e|key|m]; [done| |done].
  destruct (decide (key = ""%string)) as [->|Hne].
  { rewrite !lookupOrMerge_empty by done. cbn.
    destruct Hst as (_ & -> & _). split; [by eexists|done]. }
  destruct (inherited key) eqn:Hi.
  { assert (∀ st', storeWf st' → cache st' !! key = None) as Hmiss.
    { intros st' (_ & _ & Hm). destruct (cache st' !! key) as [r|] eqn:Hr; [|done].
      apply Hm in Hr. congruence. }
    rewrite !lookupOrMerge_inherited; [done|..]; try done.
    - apply Hmiss, create_wf.
    - by eapply Hmiss, reachable_wf. }
  destruct (mergeStyle rt tailwindStyles key) as [e|[style warns]|m] eqn:Hm.
  - by rewrite !(lookupOrMerge_Throw _ _ _ _ e).
  - destruct (lookupOrMerge_Return rt tailwindStyles st key style warns)
      as (res & -> & Hd); [done..|].
    destruct (lookupOrMerge_Return rt tailwindStyles create key style warns)
      as (res0 & -> & Hd0); [done..|].
    rewrite Hd, Hd0. split; [by eexists|done].
  - by apply mergeStyle_not_inherited in Hm.
Qed.

Lemma X12_history_independent_witness :
  match tailwind sampleRuntime sampleStyles
                 {| cache := {[ ""%string := 0; "bg-red-500"%string := 1 ]};
                    heap := [∅; {[ "backgroundColor"%string := VStr "#f56565" ]}] |}
                 "bg-red-500" None,
        tailwind sampleRuntime sampleStyles create "bg-red-500" None with
  | Throw e, Throw e0 => e = e0
  | Return res, Return res0 =>
      is_Some (deref (store res) (ref res)) ∧
      deref (store res) (ref res) = deref (store res0) (ref res0)
  | ReturnInherited member, ReturnInherited member0 => member = member0
  | _, _ => False
  end.
Proof.
  assert (tailwind sampleRuntime sampleStyles create "bg-red-500" None =
    Return {| ref := Some 1;
              store := {| cache := {[ ""%string := 0; "bg-red-500"%string := 1 ]};
                          heap := [∅; {[ "backgroundColor"%string :=
                                           VStr "#f56565" ]}] |};
              warnings := [] |}) as Hres by (vm_compute; reflexivity).
  exact (X12_history_independent sampleRuntime sampleStyles _ "bg-red-500" None
           (reachable_call _ _ _ _ _ _ (reachable_create _ _) Hres)).
Defined.

(** X13: a returning call leaves the store as it is or adds one key, not
    cached before, with one new object; it never removes or redirects a
    cache entry and never changes an object that was returned before. *)
Theorem X13_results_persist rt tailwindStyles st s w res :
  tailwind rt tailwindStyles st s w = Return res →
  (store res = st ∨
   ∃ key o, cache st !! key = None ∧
            store res = {| cache := <[key := length (heap st)]> (cache st);
                           heap := heap st ++ [o] |}) ∧
  cache st ⊆ cache (store res) ∧
  (∀ r o, heap st !! r = Some o → heap (store res) !! r = Some o).
Proof.
  intros Hres. rewrite tailwind_eq in Hres.
  destruct (normalizedKey s w) as [|key|]; [done| |done].
  apply lookupOrMerge_store in Hres as [->|(o & Hmiss & _ & _ & ->)].
  { split_and!; [by left|done..]. }
  split_and!; cbn [cache heap].
  - right. by exists key, o.
  - by apply insert_subseteq.
  - intros r o'. apply lookup_app_l_Some.
Qed.

Lemma X13_results_persist_witness :
  cache create ⊆ ({[ ""%string := 0; "bg-red-500"%string := 1 ]} : gmap string nat).
Proof.
  assert (tailwind sampleRuntime sampleStyles create "bg-red-500" None =
    Return {| ref := Some 1;
              store := {| cache := {[ ""%string := 0; "bg-red-500"%string := 1 ]};
                          heap := [∅; {[ "backgroundColor"%string :=
                                           VStr "#f56565" ]}] |};
              warnings := [] |}) as Hres by (vm_compute; reflexivity).
  exact (proj1 (proj2 (X13_results_persist _ _ _ _ _ _ Hres))).
Defined.

(** X14: two successive returning calls yield the same object exactly
    when their normalised strings are equal: distinct cache keys never share
    an object. *)
Theorem X14_same_object_iff_same_key rt tailwindStyles st s1 w1 s2 w2 res1 res2 :
  reachable rt tailwindStyles st →
  tailwind rt tailwindStyles st s1 w1 = Return res1 →
  tailwind rt tailwindStyles (store res1) s2 w2 = Return res2 →
  ref res2 = ref res1 ↔ normalizedKey s2 w2 = normalizedKey s1 w1.
Proof.
  intros Hst H1 H2.
  assert (storeWf (store res1)) as (Hb & Hi & _).
  { eapply reachable_wf. by eapply reachable_call. }
  rewrite tailwind_eq in H1, H2.
  destruct (normalizedKey s1 w1) as [|key1|]; [done| |done].
  destruct (normalizedKey s2 w2) as [|key2|]; [done| |done].
  apply lookupOrMerge_ref in H1 as Hr1.
  split.
  - intros Heq. f_equal.
    apply lookupOrMerge_store in H2 as Hs2.
    apply lookupOrMerge_ref in H2 as Hr2.
    destruct Hs2 as [Hsame|(o & Hmiss & _ & Hfresh & _)].
    + rewrite Hsame in Hr2.
      destruct (ref res1) as [r|] eqn:Href.
      * eapply Hi; [by rewrite <-Hr2, Heq|done].
      * pose proof (lookupOrMerge_object rt tailwindStyles st key1 res1
                      (reachable_inv _ _ _ Hst) H1) as (r & o & Hr & _).
        congruence.
    + rewrite Heq, Hr1 in Hfresh. apply Hb in Hfresh. lia.
  - intros [= ->].
    apply (lookupOrMerge_again _ _ _ _ _ rt tailwindStyles) in H1.
    rewrite H1 in H2. by injection H2 as <-.
Qed.

Lemma X14_same_object_iff_same_key_witness :
  Some 2 = Some 1 ↔
  normalizedKey "text-lg" None = normalizedKey "bg-red-500" None.
Proof.
  assert (tailwind sampleRuntime sampleStyles create "bg-red-500" None =
    Return {| ref := Some 1;
              store := {| cache := {[ ""%string := 0; "bg-red-500"%string := 1 ]};
                          heap := [∅; {[ "backgroundColor"%string :=
                                           VStr "#f56565" ]}] |};
              warnings := [] |}) as H1 by (vm_compute; reflexivity).
  assert (tailwind sampleRuntime sampleStyles
            {| cache := {[ ""%string := 0; "bg-red-500"%string := 1 ]};
               heap := [∅; {[ "backgroundColor"%string := VStr "#f56565" ]}] |}
            "text-lg" None =
    Return {| ref := Some 2;
              store := {| cache := {[ ""%string := 0; "bg-red-500"%string := 1;
                                      "text-lg"%string := 2 ]};
                          heap := [∅; {[ "backgroundColor"%string :=
                                           VStr "#f56565" ]};
                                   {[ "fontSize"%string := VNum 18;
                                      "lineHeight"%string := VNum 28 ]}] |};
              warnings := [] |}) as H2 by (vm_compute; reflexivity).
  exact (X14_same_object_iff_same_key _ _ _ _ _ _ _ _ _
           (reachable_create _ _) H1 H2).
Defined.

(** X15: in a reachable store, [getColor name] is the call of [tailwind],
    without a width, on ["bg-"] followed by [name] with ["bg-"] inserted
    after each of its spaces: it throws what that call throws, and otherwise
    returns the [backgroundColor] of the object the call returns, which
    always exists; that call never returns an inherited member. *)
Theorem X15_getColor rt tailwindStyles st name :
  reachable rt tailwindStyles st →
  match tailwind rt tailwindStyles st ("bg-" +:+ prefixAfterSpaces name) None with
  | Throw e => getColor rt tailwindStyles st name = Throw e
  | Return res =>
      ∃ o, deref (store res) (ref res) = Some o ∧
           getColor rt tailwindStyles st name =
             Return (o !! "backgroundColor"%string, store res, warnings res)
  | ReturnInherited _ => False
  end.
Proof.
  intros Hst. unfold getColor. rewrite getColor_classNames.
  destruct (tailwind _ _ _ _ _) as [e|res|m] eqn:Hres; [done| |].
  - rewrite tailwind_eq in Hres.
    destruct (normalizedKey _ _) as [|key|]; [done| |done].
    destruct (lookupOrMerge_object rt tailwindStyles st key res
                (reachable_inv _ _ _ Hst) Hres) as (r & o & Hr & Ho & _).
    exists o. unfold deref. rewrite Hr. cbn. by rewrite Ho.
  - rewrite tailwind_eq in Hres.
    destruct (normalizedKey _ _) as [|key|] eqn:Hk; [done| |].
    + apply getColor_key_not_inherited in Hk. unfold lookupOrMerge in Hres.
      case_bool_decide; [done|]. destruct (cache st !! key); [done|].
      rewrite Hk in Hres.
      by destruct (mergeStyle rt tailwindStyles key) as [|[??]|m'] eqn:Hm;
        [..|apply mergeStyle_not_inherited in Hm].
    + by apply normalizedKey_not_inherited in Hk.
Qed.

Lemma X15_getColor_witness :
  match tailwind sampleRuntime sampleStyles create
                 ("bg-" +:+ prefixAfterSpaces "red-500") None with
  | Throw e => getColor sampleRuntime sampleStyles create "red-500" = Throw e
  | Return res =>
      ∃ o, deref (store res) (ref res) = Some o ∧
           getColor sampleRuntime sampleStyles create "red-500" =
             Return (o !! "backgroundColor"%string, store res, warnings res)
  | ReturnInherited _ => False
  end.
Proof.
  exact (X15_getColor sampleRuntime sampleStyles create "red-500"
           (reachable_create _ _)).
Defined.

(** X16: [getColor] passes no width, so it throws the missing-width error
    for every name in which a breakpoint tag occurs. *)
Theorem X16_getColor_breakpoint rt tailwindStyles st name k :
  k ∈ maxWidthKeys → includes name k = true →
  getColor rt tailwindStyles st name = Throw (MissingWindowWidth None).
Proof.
  intros Hk Hin. unfold getColor. rewrite getColor_classNames.
  assert (noWhiteSpace k = true) as Hns.
  { apply in_maxWidthKeys in Hk as (i & Hi & ->). by apply maxWidthKey_noWhiteSpace. }
  rewrite tailwind_eq.
  destruct (normalizedKey_Throw ("bg-" +:+ prefixAfterSpaces name) None
              (MissingWindowWidth None)) as [_ ->]; [done|].
  split_and!; [done| |done]. unfold haveMaxWidthKeys.
  apply existsb_exists. exists k. split; [by apply list_elem_of_In|].
  by apply includes_getColor_classNames.
Qed.

Lemma X16_getColor_breakpoint_witness :
  getColor sampleRuntime sampleStyles create "md:red-500"
    = Throw (MissingWindowWidth None).
Proof.
  apply (X16_getColor_breakpoint sampleRuntime sampleStyles create "md:red-500"
           "md:"); [|reflexivity].
  apply list_elem_of_In. right. left. reflexivity.
Defined.

(** X17: for a name whose pieces between spaces are ordinary (the empty
    name included), [getColor] returns the [backgroundColor] of the
    fragments of the pieces prefixed with ["bg-"], assigned to the empty
    style in sorted order and passed through the variable resolver. *)
Theorem X17_getColor_ordinary rt tailwindStyles st name :
  reachable rt tailwindStyles st →
  Forall ordinaryClass (split name) →
  ∃ st' warns,
    getColor rt tailwindStyles st name =
      Return (useVariables rt
                (foldl assign ∅
                   (omap (λ t, tailwindStyles !! t)
                         (sort (map (λ className, "bg-" +:+ className)
                                    (split name)))))
                !! "backgroundColor"%string,
              st', warns).
Proof.
  intros Hst Hn. unfold getColor.
  set (l := map (λ className, "bg-" +:+ className) (split name)).
  assert (Forall (λ t, t ≠ ""%string ∧ ordinaryClass t) l) as Hl.
  { apply Forall_fmap. eapply Forall_impl; [exact Hn|].
    intros c Hc. split; [done|by apply ordinaryClass_bg]. }
  assert (words (join l) = l) as Hw.
  { apply words_join_tokens. eapply Forall_impl; [exact Hl|].
    by intros ? [? [? _]]. }
  assert (l ≠ []) as Hne.
  { unfold l. pose proof (split_ne_nil name). by destruct (split name). }
  assert (normalizedKey (join l) None = Return (join (sort l))) as Hk.
  { rewrite normalizedKey_untagged, Hw, sortByMaxWidthKeys_sort; [done|..].
    - apply Forall_fmap, Forall_forall. intros c _. apply bg_untagged.
    - apply ordinary_haveMaxWidthKeys. rewrite Hw.
      eapply Forall_impl; [exact Hl|]. by intros ? [_ ?]. }
  assert (Forall (λ t, t ≠ ""%string ∧ ordinaryClass t) (sort l)) as Hsl.
  { revert Hl. apply Permutation_Forall. symmetry. apply sort_perm. }
  assert (inherited (join (sort l)) = false) as Hi.
  { apply (getColor_key_not_inherited (prefixAfterSpaces name)).
    by rewrite <-getColor_classNames. }
  pose proof (ordinary_names rt tailwindStyles st (join l) None (sort l)
                Hst Hk Hsl) as Hres.
  rewrite Hi in Hres. destruct Hres as (res & -> & -> & _).
  by eexists _, _.
Qed.

Lemma X17_getColor_ordinary_witness :
  ∃ st' warns,
    getColor sampleRuntime sampleStyles create "red-500 blue-500" =
      Return (useVariables sampleRuntime
                (foldl assign ∅
                   (omap (λ t, sampleStyles !! t)
                         (sort (map (λ className, "bg-" +:+ className)
                                    (split "red-500 blue-500")))))
                !! "backgroundColor"%string,
              st', warns).
Proof.
  assert (split "red-500 blue-500" = ["red-500"; "blue-500"]%string) as Hs
    by (vm_compute; reflexivity).
  assert (Forall ordinaryClass (split "red-500 blue-500")) as Hc.
  { rewrite Hs. repeat constructor; apply (bool_decide_eq_true _);
      vm_compute; reflexivity. }
  exact (X17_getColor_ordinary sampleRuntime sampleStyles create
           "red-500 blue-500" (reachable_create _ _) Hc).
Defined.
